(** * Text segmentation engine of the multi-tool application

    A shallow embedding of [src/utils/text_processing.py] (class
    [TextProcessor]: [clean_text], [segment_text_for_audio],
    [split_story_into_pages]) and of the caller
    [PDFToAudioConverter.split_text_into_chunks] in [src/pdf_to_audio.py].

    Conventions of the model.
    - A Python [str] is a [list ascii]; a character stands for the code
      point with the same number, so the model covers the texts whose code
      points are below 256.  The character classes of [re] and of
      [str.strip], [str.lower] are written out for that range.
    - [len] is [length]; Python integers are [Z].
    - NLTK's [sent_tokenize] is an external library function.  It is a
      parameter of the model ([Section Segmenter]); it may raise.
    - Exceptions are values of [result]; the Streamlit calls
      ([st.info], [st.error]) only display a message and are left out. *)

From Stdlib Require Import String.
From Stdlib Require Import List Ascii ZArith Lia Bool Arith.
From Stdlib Require Import Permutation Sorted.
Import ListNotations.

(** ** Python strings *)

Module PyStr.

(** A Python [str]. *)
Abbreviation str := (list ascii).

(** Literals: [py "abc"] is the Python string ['abc']. *)
Definition py (s : String.string) : str := String.list_ascii_of_string s.
Arguments py s%_string.

Definition code (c : ascii) : N := N_of_ascii c.

Definition between (lo hi : N) (c : ascii) : bool :=
  (lo <=? code c)%N && (code c <=? hi)%N.

Definition is_code (n : N) (c : ascii) : bool := (code c =? n)%N.

(** [str.isspace] and the class [\s] of a [str] pattern. *)
Definition is_space (c : ascii) : bool :=
  between 9 13 c || between 28 32 c || is_code 133 c || is_code 160 c.

(** The class [A-Z]. *)
Definition is_upper (c : ascii) : bool := between 65 90 c.

(** The class [\w] of a [str] pattern: alphanumeric code points and the
    underscore. *)
Definition is_word (c : ascii) : bool :=
  between 48 57 c || is_upper c || is_code 95 c || between 97 122 c
  || is_code 170 c || between 178 179 c || is_code 181 c
  || between 185 186 c || between 188 190 c
  || between 192 214 c || between 216 246 c || between 248 255 c.

(** The class [.,!?;:] used by [clean_text]. *)
Definition is_punct (c : ascii) : bool :=
  is_code 46 c || is_code 44 c || is_code 33 c || is_code 63 c
  || is_code 59 c || is_code 58 c.

(** Truth value of a string: non-empty. *)
Definition truthy (t : str) : bool :=
  match t with [] => false | _ :: _ => true end.

Fixpoint lstrip (t : str) : str :=
  match t with
  | [] => []
  | c :: r => if is_space c then lstrip r else t
  end.

Definition rstrip (t : str) : str := rev (lstrip (rev t)).

(** [t.strip()] *)
Definition strip (t : str) : str := rstrip (lstrip t).

(** [c.lower()] for one code point below 256. *)
Definition lower_char (c : ascii) : ascii :=
  if is_upper c || between 192 214 c || between 216 222 c
  then ascii_of_N (code c + 32)
  else c.

(** [t.lower()] *)
Definition lower (t : str) : str := map lower_char t.

Fixpoint starts_with (w t : str) : bool :=
  match w, t with
  | [], _ => true
  | _ :: _, [] => false
  | a :: w', b :: t' => Ascii.eqb a b && starts_with w' t'
  end.

(** [w in t] for strings: [w] occurs in [t] as a substring. *)
Fixpoint contains (w t : str) : bool :=
  starts_with w t ||
  match t with
  | [] => false
  | _ :: r => contains w r
  end.

(** [sep.join(l)] *)
Fixpoint join (sep : str) (l : list str) : str :=
  match l with
  | [] => []
  | x :: r =>
      match r with
      | [] => x
      | _ :: _ => x ++ sep ++ join sep r
      end
  end.

(** [t.split()]: the maximal runs of non-whitespace characters of [t]. *)
Fixpoint split_ws (cur : str) (t : str) : list str :=
  match t with
  | [] => if truthy cur then [cur] else []
  | c :: r =>
      if is_space c
      then (if truthy cur then cur :: split_ws [] r else split_ws [] r)
      else split_ws (cur ++ [c]) r
  end.

Definition words (t : str) : list str := split_ws [] t.

(** [t[i:j]] for [0 <= i <= j]. *)
Definition slice (t : str) (i j : nat) : str := firstn (j - i) (skipn i t).

Fixpoint take_while (p : ascii -> bool) (t : str) : str :=
  match t with
  | [] => []
  | c :: r => if p c then c :: take_while p r else []
  end.

Fixpoint drop_while (p : ascii -> bool) (t : str) : str :=
  match t with
  | [] => []
  | c :: r => if p c then drop_while p r else t
  end.

(** Only whitespace (or nothing at all). *)
Definition blank (t : str) : bool := forallb is_space t.

(** Truth value of [t.strip()]. *)
Definition nonblank (t : str) : bool := truthy (strip t).

End PyStr.
Import PyStr.

(** ** Regular-expression substitution *)

Module Re.

(** A pattern, tried at the first position of a non-empty text: on success
    the replacement text and the number of characters the match takes
    beyond the first one. *)
Definition matcher := str -> option (str * nat).

(** [re.sub(pattern, repl, t)]: the leftmost non-overlapping matches are
    replaced, the other characters are copied.  None of the patterns below
    matches the empty string.  [skip] counts the characters of the current
    match that are still to be passed over. *)
Fixpoint sub_from (m : matcher) (skip : nat) (t : str) : str :=
  match t with
  | [] => []
  | c :: r =>
      match skip with
      | S k => sub_from m k r
      | O =>
          match m t with
          | Some (repl, n) => repl ++ sub_from m n r
          | None => c :: sub_from m 0 r
          end
      end
  end.

Definition sub (m : matcher) (t : str) : str := sub_from m 0 t.

(** [\s+], replaced by one space.  The run is taken whole (greedy). *)
Definition ws_run : matcher := fun t =>
  match t with
  | c :: r =>
      if is_space c
      then Some ([" "%char], length (take_while is_space r))
      else None
  | [] => None
  end.

(** [\s+([.,!?;:])], replaced by group 1.  Backtracking into a shorter run
    cannot help: the next character would be whitespace, not punctuation. *)
Definition ws_before_punct : matcher := fun t =>
  match t with
  | c :: r =>
      if is_space c then
        match drop_while is_space r with
        | p :: _ =>
            if is_punct p
            then Some ([p], S (length (take_while is_space r)))
            else None
        | [] => None
        end
      else None
  | [] => None
  end.

(** [([.,!?;:])\s*([A-Z])], replaced by group 1, a space, group 2. *)
Definition punct_then_upper : matcher := fun t =>
  match t with
  | c :: r =>
      if is_punct c then
        match drop_while is_space r with
        | u :: _ =>
            if is_upper u
            then Some ([c; " "%char; u], S (length (take_while is_space r)))
            else None
        | [] => None
        end
      else None
  | [] => None
  end.

(** The characters that the negated class of the fourth pattern of
    [clean_text] does not match, and which are therefore kept: [\w], [\s],
    the six punctuation marks, both parentheses, the apostrophe (39), the
    double quote (34) and the hyphen (45). *)
Definition kept (c : ascii) : bool :=
  is_word c || is_space c || is_punct c
  || is_code 40 c || is_code 41 c || is_code 39 c || is_code 34 c
  || is_code 45 c.

(** The negated class itself, replaced by the empty string. *)
Definition special : matcher := fun t =>
  match t with
  | c :: _ => if kept c then None else Some ([], 0)
  | [] => None
  end.

End Re.

(** ** TextProcessor.clean_text *)

Definition clean_text (text : str) : str :=
  let text := Re.sub Re.ws_run text in
  let text := Re.sub Re.ws_before_punct text in
  let text := Re.sub Re.punct_then_upper text in
  let text := Re.sub Re.special text in
  strip text.

(** ** Exceptions *)

(** A raised exception, by the name of its class.  [except Exception]
    catches the first kind only; [KeyboardInterrupt], [SystemExit] and the
    like are of the second kind. *)
Inductive exn : Type :=
| Exception (cls : string)
| NonException (cls : string).

Inductive result (A : Type) : Type :=
| Ok (a : A)
| Raise (e : exn).
Arguments Ok {A} a.
Arguments Raise {A} e.

Definition bind {A B : Type} (r : result A) (k : A -> result B) : result B :=
  match r with
  | Ok a => k a
  | Raise e => Raise e
  end.

Notation "x <- r ;; k" := (bind r (fun x => k))
  (at level 61, r at next level, right associativity).

(** ** TextProcessor.segment_text_for_audio: the loop over the sentences *)

Module Audio.

Record state : Type := State { chunks : list str; current_chunk : str }.

Definition init : state := State [] [].

(** One iteration of [for sentence in sentences]. *)
Definition step (max_chunk_size : Z) (st : state) (sentence : str) : state :=
  if (Z.of_nat (length (current_chunk st ++ sentence)) >? max_chunk_size)%Z
     && truthy (current_chunk st)
  then State (chunks st ++ [strip (current_chunk st)]) sentence
  else State (chunks st)
             (current_chunk st ++
                (if truthy (current_chunk st)
                 then py " " ++ sentence
                 else sentence)).

(** The statement after the loop. *)
Definition finish (st : state) : list str :=
  if truthy (strip (current_chunk st))
  then chunks st ++ [strip (current_chunk st)]
  else chunks st.

Definition run (max_chunk_size : Z) (st : state) (sentences : list str)
  : list str :=
  finish (fold_left (step max_chunk_size) sentences st).

Definition segment_sentences (sentences : list str) (max_chunk_size : Z)
  : list str :=
  run max_chunk_size init sentences.

(** The chunk made of a group of consecutive sentences. *)
Definition chunk_of (g : list str) : str := strip (join (py " ") g).

(** The state of the loop after the sentences [l]: the emitted chunks
    and the open chunk are groups of consecutive sentences. *)
Definition grouped (l : list str) (st : state) : Prop :=
  exists (G : list (list str)) (g : list str),
    chunks st = map chunk_of G /\
    current_chunk st = join (py " ") g /\
    concat G ++ g = l /\
    Forall (fun x => x <> []) G.

(** A chunk is within one character of the budget, or it is one
    sentence (trimmed). *)
Definition within (max : Z) (l : list str) (c : str) : Prop :=
  (Z.of_nat (length c) <= max + 1)%Z \/ exists s, In s l /\ c = strip s.

End Audio.

(** ** TextProcessor.split_story_into_pages: the loop over the sentences *)

Module Story.

Definition markers : list str :=
  [py "but"; py "however"; py "then"; py "so"; py "and"; py "or";
   py "finally"; py "suddenly"].

Record state : Type :=
  State { pages : list str; current_page : list str; current_length : nat }.

Definition init : state := State [] [] 0.

(** The value of [should_new_page] once the sentence has been appended. *)
Definition should_new_page (current_page : list str) (current_length : nat)
    (sentence : str) : bool :=
  if 4 <=? length current_page then true
  else if (300 <? current_length) && (2 <=? length current_page) then true
  else if (3 <=? length current_page) && (200 <? current_length) then
    let last_sentence := lower sentence in
    existsb (fun word => contains word last_sentence) markers
  else false.

(** One iteration of [for sentence in sentences]. *)
Definition step (st : state) (sentence : str) : state :=
  let page := current_page st ++ [sentence] in
  let len := current_length st + length sentence in
  if should_new_page page len sentence
  then State (pages st ++ [join (py " ") page]) [] 0
  else State (pages st) page len.

(** The statement after the loop. *)
Definition finish (st : state) : list str :=
  match current_page st with
  | [] => pages st
  | _ :: _ => pages st ++ [join (py " ") (current_page st)]
  end.

Definition run (st : state) (sentences : list str) : list str :=
  finish (fold_left step sentences st).

(** [[s.strip() for s in sentences if s.strip()]] *)
Definition nonempty_sentences (sentences : list str) : list str :=
  map strip (filter (fun s => truthy (strip s)) sentences).

Definition paginate_sentences (sentences : list str) : list str :=
  run init sentences.

End Story.

(** ** PDFToAudioConverter.split_text_into_chunks: the fallback *)

Module Fallback.

(** [range(0, stop, step)] for [step > 0]. *)
Definition range0 (stop step : nat) : list nat :=
  map (fun k => k * step) (seq 0 ((stop + step - 1) / step)).

(** [[text[i:i+chunk_size] for i in range(0, len(text), chunk_size)]].
    [range] raises [ValueError] for a zero step and is empty for a
    negative one. *)
Definition slices (text : str) (chunk_size : Z) : result (list str) :=
  if (chunk_size =? 0)%Z then Raise (Exception "ValueError")
  else if (chunk_size <? 0)%Z then Ok []
  else
    let n := Z.to_nat chunk_size in
    Ok (map (fun i => slice text i (i + n)) (range0 (length text) n)).

(** Window [k] of width [n]: [text[k*n : k*n+n]]. *)
Definition window (n : nat) (text : str) (k : nat) : str :=
  slice text (k * n) (k * n + n).

(** The number of windows: [len(range(0, stop, n))]. *)
Definition count (stop n : nat) : nat := (stop + n - 1) / n.

End Fallback.

(** ** The functions on texts, over a sentence splitter *)

Section Segmenter.

(** [nltk.tokenize.sent_tokenize] *)
Variable sent_tokenize : str -> result (list str).

Definition segment_text_for_audio (text : str) (max_chunk_size : Z)
  : result (list str) :=
  sentences <- sent_tokenize text ;;
  Ok (Audio.segment_sentences sentences max_chunk_size).

(** The sentences that the page loop iterates over. *)
Definition story_sentences (story_text : str) : result (list str) :=
  sentences <- sent_tokenize (clean_text story_text) ;;
  Ok (Story.nonempty_sentences sentences).

Definition split_story_into_pages (story_text : str) (sentences_per_page : Z)
  : result (list str) :=
  sentences <- story_sentences story_text ;;
  Ok (Story.paginate_sentences sentences).

Definition split_text_into_chunks (text : str) (chunk_size : Z)
  : result (list str) :=
  match segment_text_for_audio text chunk_size with
  | Ok chunks => Ok chunks
  | Raise (Exception _) => Fallback.slices text chunk_size
  | Raise e => Raise e
  end.

End Segmenter.

(** ** A sample sentence splitter

    It stands in for NLTK where a statement is tried on a concrete text: a
    sentence ends at one of [.], [!], [?] followed by whitespace; the
    sentences are trimmed and the blank ones dropped. *)

Module Sample.

Definition is_terminator (c : ascii) : bool :=
  is_code 46 c || is_code 33 c || is_code 63 c.

Fixpoint cut (cur : str) (t : str) : list str :=
  match t with
  | [] => [cur]
  | c :: r =>
      if is_terminator c
         && match r with d :: _ => is_space d | [] => false end
      then (cur ++ [c]) :: cut [] r
      else cut (cur ++ [c]) r
  end.

Definition sent_tokenize (t : str) : result (list str) :=
  Ok (filter (fun s => truthy (strip s)) (map strip (cut [] t))).

(** A splitter whose resources are missing. *)
Definition failing_tokenize (t : str) : result (list str) :=
  Raise (Exception "LookupError").

End Sample.

(** ** The closing policy of the story paginator, in the words of the
    specification

    A page is the list of the sentences appended so far; the rules are tried
    after each append, in this order.  The pagination of the source
    ([Story.run]) is compared with this one below. *)

Module StorySpec.

(** Cumulative character length of a page: the lengths of its sentences
    (the separating spaces are not counted). *)
Definition page_length (page : list str) : nat :=
  list_sum (map (@length ascii) page).

Inductive rule : Type := ByCount | ByLength | ByMarker.

(** The lowercased sentence contains one of the discourse markers as a
    substring. *)
Definition has_marker (sentence : str) : bool :=
  existsb (fun marker => contains marker (lower sentence)) Story.markers.

Definition just_appended (page : list str) : str := last page [].

Definition closing_rule (page : list str) : option rule :=
  if length page =? 4 then Some ByCount
  else if (300 <? page_length page) && (2 <=? length page) then Some ByLength
  else if (3 <=? length page) && (200 <? page_length page)
          && has_marker (just_appended page) then Some ByMarker
  else None.

Definition closes (page : list str) : bool :=
  match closing_rule page with Some _ => true | None => false end.

(** Append each sentence to the current page; close the page when a rule
    applies; what remains after the last sentence is a final page. *)
Fixpoint group (page : list str) (sentences : list str)
  : list (list str) :=
  match sentences with
  | [] => match page with [] => [] | _ :: _ => [page] end
  | s :: rest =>
      if closes (page ++ [s])
      then (page ++ [s]) :: group [] rest
      else group (page ++ [s]) rest
  end.

Definition paginate (sentences : list str) : list str :=
  map (join (py " ")) (group [] sentences).

End StorySpec.

(** ** Cleaned texts

    What the passes of [clean_text] establish, as predicates on the
    text. *)

Module Normal.

(** The text starts with a character of the class [p]. *)
Definition next_is (p : ascii -> bool) (t : str) : bool :=
  match t with
  | c :: _ => p c
  | [] => false
  end.

(** No character of the class [p] is directly followed by one of the
    class [q]. *)
Fixpoint no_pair (p q : ascii -> bool) (t : str) : bool :=
  match t with
  | [] => true
  | a :: r => negb (p a && next_is q r) && no_pair p q r
  end.

(** A whitespace character is the plain space. *)
Definition plain_space (c : ascii) : bool :=
  negb (is_space c) || Ascii.eqb c " ".

(** All characters pass the filter of the fourth pass. *)
Definition all_kept (t : str) : bool := forallb Re.kept t.

(** A text that [clean_text] leaves as it is: only kept characters,
    single plain spaces, no space before a punctuation mark, no capital
    directly after a punctuation mark, no whitespace at either end. *)
Definition normal (t : str) : Prop :=
  all_kept t = true /\
  forallb plain_space t = true /\
  no_pair is_space is_space t = true /\
  no_pair is_space is_punct t = true /\
  no_pair is_punct is_upper t = true /\
  strip t = t.

End Normal.

(** ** TextProcessor.format_text_for_storybook *)

Module Wrap.

(** The line break ['\n']. *)
Definition newline : ascii := ascii_of_nat 10.

Record state : Type := State { lines : list str; current_line : str }.

Definition init : state := State [] [].

(** One iteration of [for word in words]. *)
Definition step (max_chars_per_line : Z) (st : state) (word : str) : state :=
  if (Z.of_nat (length (current_line st ++ py " " ++ word))
      <=? max_chars_per_line)%Z
  then State (lines st)
             (current_line st ++
                (if truthy (current_line st) then py " " ++ word else word))
  else State (if truthy (current_line st)
              then lines st ++ [current_line st]
              else lines st)
             word.

(** The statement after the loop. *)
Definition finish (st : state) : list str :=
  if truthy (current_line st)
  then lines st ++ [current_line st]
  else lines st.

Definition run (max_chars_per_line : Z) (st : state) (ws : list str)
  : list str :=
  finish (fold_left (step max_chars_per_line) ws st).

(** The list [lines] at the end of the function. *)
Definition wrap_words (ws : list str) (max_chars_per_line : Z) : list str :=
  run max_chars_per_line init ws.

Definition no_space (c : ascii) : bool := negb (is_space c).

(** A word as [str.split] returns it: not empty, no whitespace inside. *)
Definition solid (w : str) : bool := truthy w && forallb no_space w.

(** The words a line is made of fit the width. *)
Definition fits (max_chars_per_line : Z) (g : list str) : Prop :=
  (Z.of_nat (length (join (py " ") g)) <= max_chars_per_line)%Z.

(** The lines seen as groups of words: [g] is the group of the line
    being filled. *)
Fixpoint groups (max_chars_per_line : Z) (g : list str) (ws : list str)
  : list (list str) :=
  match ws with
  | [] => match g with [] => [] | _ :: _ => [g] end
  | w :: rest =>
      if (Z.of_nat (length (join (py " ") g ++ py " " ++ w))
          <=? max_chars_per_line)%Z
      then groups max_chars_per_line (g ++ [w]) rest
      else match g with
           | [] => groups max_chars_per_line [w] rest
           | _ :: _ => g :: groups max_chars_per_line [w] rest
           end
  end.

(** Between two consecutive lines the break was forced: the first word
    of the next line, put after the line and a space, passes the width. *)
Fixpoint forced_breaks (max_chars_per_line : Z) (gs : list (list str))
  : Prop :=
  match gs with
  | [] => True
  | g :: rest =>
      match rest with
      | (w :: _) :: _ =>
          (Z.of_nat (length (join (py " ") g ++ py " " ++ w))
           > max_chars_per_line)%Z
      | _ => True
      end
      /\ forced_breaks max_chars_per_line rest
  end.

End Wrap.

Definition format_text_for_storybook
    (text : str) (font_size : Z) (max_chars_per_line : Z) : str :=
  let words := words text in
  join [Wrap.newline] (Wrap.wrap_words words max_chars_per_line).

(** ** The audio chunks seen as groups of sentences *)

Module AudioGroups.

Definition nonempty (g : list str) : bool :=
  match g with [] => false | _ :: _ => true end.

(** [g] is the group of the chunk being filled. *)
Fixpoint groups (max_chunk_size : Z) (g : list str) (ss : list str)
  : list (list str) :=
  match ss with
  | [] => match g with [] => [] | _ :: _ => [g] end
  | s :: rest =>
      if (Z.of_nat (length (join (py " ") g ++ s)) >? max_chunk_size)%Z
         && nonempty g
      then g :: groups max_chunk_size [s] rest
      else groups max_chunk_size (g ++ [s]) rest
  end.

(** Between two consecutive chunks the cut was forced: the chunk, not
    yet trimmed, directly followed by the first sentence of the next
    chunk is longer than the budget. *)
Fixpoint forced_cuts (max_chunk_size : Z) (gs : list (list str)) : Prop :=
  match gs with
  | [] => True
  | g :: rest =>
      match rest with
      | (s :: _) :: _ =>
          (Z.of_nat (length (join (py " ") g ++ s)) > max_chunk_size)%Z
      | _ => True
      end
      /\ forced_cuts max_chunk_size rest
  end.

End AudioGroups.

(** ** Strings without whitespace at their ends *)

Module Ends.

(** Not empty, and neither the first nor the last character is
    whitespace. *)
Definition firm (x : str) : Prop :=
  truthy x = true /\
  Normal.next_is is_space x = false /\
  Normal.next_is is_space (rev x) = false.

End Ends.

(** ** TextProcessor.extract_keywords *)

Module Keywords.

Definition str_dec : forall a b : str, {a = b} + {a <> b} :=
  list_eq_dec ascii_dec.

Definition str_eqb (a b : str) : bool :=
  if str_dec a b then true else false.

(** [w in l] for a list or a set of strings. *)
Definition mem (w : str) (l : list str) : bool := existsb (str_eqb w) l.

(** An alphanumeric code point. *)
Definition is_alnum (c : ascii) : bool := is_word c && negb (is_code 95 c).

(** [w.isalnum()] *)
Definition isalnum (w : str) : bool := truthy w && forallb is_alnum w.

(** The test of the list comprehension. *)
Definition keeps (stop_words : list str) (word : str) : bool :=
  isalnum word && negb (mem word stop_words) && (2 <? length word).

(** [Counter]: the distinct elements in the order of their first
    occurrence, each with its number of occurrences. *)
Fixpoint incr (w : str) (c : list (str * nat)) : list (str * nat) :=
  match c with
  | [] => [(w, 1)]
  | (k, n) :: r =>
      if str_eqb k w then (k, S n) :: r else (k, n) :: incr w r
  end.

Definition Counter (l : list str) : list (str * nat) :=
  fold_left (fun c w => incr w c) l [].

(** Stable sort by decreasing count: [sorted(items, key=itemgetter(1),
    reverse=True)]. *)
Fixpoint insert (x : str * nat) (l : list (str * nat)) : list (str * nat) :=
  match l with
  | [] => [x]
  | y :: r => if snd x <? snd y then y :: insert x r else x :: y :: r
  end.

Fixpoint sort (l : list (str * nat)) : list (str * nat) :=
  match l with
  | [] => []
  | x :: r => insert x (sort r)
  end.

(** [c.most_common(n)] for an integer [n]: the [n] first items of the
    sorted list, none for [n <= 0]. *)
Definition most_common (c : list (str * nat)) (n : Z) : list (str * nat) :=
  firstn (Z.to_nat n) (sort c).

(** Number of occurrences of [w] in [l]. *)
Definition occurrences (l : list str) (w : str) : nat := count_occ str_dec l w.

(** The order of [most_common]: counts do not increase. *)
Definition by_count (a b : str * nat) : Prop := snd b <= snd a.

(** The count a counter holds for [w]. *)
Fixpoint count_of (c : list (str * nat)) (w : str) : nat :=
  match c with
  | [] => 0
  | (k, n) :: r => if str_eqb k w then n else count_of r w
  end.

Section Extract.

(** [stopwords.words('english')] and [word_tokenize], of NLTK. *)
Variable stopwords_english : result (list str).
Variable word_tokenize : str -> result (list str).

Definition extract_keywords (text : str) (max_keywords : Z)
  : result (list str) :=
  stop_words <- stopwords_english ;;
  words <- word_tokenize (lower text) ;;
  let keywords := filter (keeps stop_words) words in
  let word_freq := Counter keywords in
  Ok (map fst (most_common word_freq max_keywords)).

End Extract.

(** A sample tokenizer and stop list, to try the statements. *)
Definition sample_tokenize (t : str) : result (list str) := Ok (words t).

Definition sample_stopwords : result (list str) :=
  Ok [py "the"; py "and"; py "was"].

End Keywords.

(** ** Text extraction from a PDF file *)

Module Pdf.

(** What a parser gives for the pages of a file: the text of each page
    ([None] where [extract_text] returns [None]), or the exception raised
    on the way. *)
Definition pages := result (list (option str)).

(** [if page_text: text += page_text + "\n"], page after page. *)
Definition add_page (text : str) (page_text : option str) : str :=
  match page_text with
  | Some t => if truthy t then text ++ t ++ [Wrap.newline] else text
  | None => text
  end.

Definition add_pages (text : str) (l : list (option str)) : str :=
  fold_left add_page l text.

(** The words of the pages, page after page. *)
Definition page_words (l : list (option str)) : list str :=
  flat_map (fun p => match p with Some t => words t | None => [] end) l.

(** [TextProcessor.extract_text_from_pdf]: pdfplumber first, PyPDF2 on top
    when fewer than 100 characters came out; an [Exception] gives the
    empty string. *)
Definition extract_text_from_pdf (pdfplumber pypdf2 : pages) : result str :=
  match pdfplumber with
  | Ok l =>
      let text := add_pages [] l in
      if length (strip text) <? 100 then
        match pypdf2 with
        | Ok l2 => Ok (strip (add_pages text l2))
        | Raise (Exception _) => Ok []
        | Raise e => Raise e
        end
      else Ok (strip text)
  | Raise (Exception _) => Ok []
  | Raise e => Raise e
  end.

(** [PDFToAudioConverter.extract_text_from_pdf], over the result of the
    call to [TextProcessor.extract_text_from_pdf]. *)
Definition converter_extract_text (extracted : result str) : result str :=
  match extracted with
  | Ok text =>
      if negb (truthy text) || (length (strip text) <? 10) then Ok []
      else
        let cleaned_text := clean_text text in
        if negb (truthy cleaned_text) || (length (strip cleaned_text) <? 10)
        then Ok []
        else Ok cleaned_text
  | Raise (Exception _) => Ok []
  | Raise e => Raise e
  end.

End Pdf.

(** * Scenarios *)

Example clean_text_ex1 :
  clean_text (py "This   is   dirty   text   with   extra   spaces.")
  = py "This is dirty text with extra spaces.".
Proof. reflexivity. Qed.

Example clean_text_ex2 : clean_text (py "x.Y .Z") = py "x. Y. Z".
Proof. reflexivity. Qed.

Example clean_text_ex3 : clean_text (py "a  .  B") = py "a. B".
Proof. reflexivity. Qed.

Example clean_text_ex4 : clean_text (py "a @ b") = py "a  b".
Proof. reflexivity. Qed.

Example clean_text_ex5 : clean_text (py ". . A") = py ".. A".
Proof. reflexivity. Qed.

Example sample_tokenize_ex :
  Sample.sent_tokenize (py "Hello world. This is a test.  It works!")
  = Ok [py "Hello world."; py "This is a test."; py "It works!"].
Proof. reflexivity. Qed.

Example segment_scenario :
  segment_text_for_audio Sample.sent_tokenize
    (py "Hello world. This is a test. It works well. Another sentence here.")
    30
  = Ok [py "Hello world. This is a test."; py "It works well.";
        py "Another sentence here."].
Proof. reflexivity. Qed.

Example paginate_scenario :
  split_story_into_pages Sample.sent_tokenize (py "A. B. C. D. E.") 3
  = Ok [py "A. B. C. D."; py "E."].
Proof. reflexivity. Qed.

Example fallback_scenario :
  split_text_into_chunks Sample.failing_tokenize (py "abcdefgh") 3
  = Ok [py "abc"; py "def"; py "gh"].
Proof. reflexivity. Qed.

(** Tabs, line breaks and characters outside the kept set. *)
Example clean_text_ex6 :
  clean_text ("."%char :: ascii_of_nat 9 :: py "A") = py ". A".
Proof. reflexivity. Qed.

Example clean_text_ex7 :
  clean_text ("a"%char :: ascii_of_nat 10 :: "."%char :: [ascii_of_nat 10])
  = py "a.".
Proof. reflexivity. Qed.

Example clean_text_ex8 : clean_text (py "a. @ B") = py "a.  B".
Proof. reflexivity. Qed.

(** A page closed by a discourse marker: three sentences, more than 200
    characters, and the third one contains [but]. *)
Example paginate_marker :
  Story.paginate_sentences
    [py "He ran as fast as he could across the wide and windy meadow that morning, never once looking back at the village.";
     py "He was tired beyond anything he had known before, with aching legs that would hardly carry him any further up the hill.";
     py "But he kept going.";
     py "The end."]
  = [py "He ran as fast as he could across the wide and windy meadow that morning, never once looking back at the village. He was tired beyond anything he had known before, with aching legs that would hardly carry him any further up the hill. But he kept going.";
     py "The end."].
Proof. reflexivity. Qed.

(** A page closed by its length: two sentences of more than 300
    characters together. *)
Example paginate_length :
  map (@length ascii)
    (Story.paginate_sentences
       [repeat "a"%char 200; repeat "b"%char 101; py "c."])
  = [302; 2].
Proof. reflexivity. Qed.

(** A single sentence, however long, is not closed by the length rule. *)
Example paginate_single_long :
  map (@length ascii)
    (Story.paginate_sentences [repeat "a"%char 400; py "b."])
  = [403].
Proof. reflexivity. Qed.

Example format_ex1 :
  format_text_for_storybook
    (py "This is a test text. It has multiple sentences. We will process it.")
    12 40
  = py "This is a test text. It has multiple"
    ++ [Wrap.newline] ++ py "sentences. We will process it.".
Proof. reflexivity. Qed.

Example format_ex2 :
  format_text_for_storybook (py "  ab   cdefghij k  ") 12 4
  = py "ab" ++ [Wrap.newline] ++ py "cdefghij" ++ [Wrap.newline] ++ py "k".
Proof. reflexivity. Qed.

Example counter_ex :
  Keywords.most_common
    (Keywords.Counter [py "b"; py "a"; py "c"; py "a"; py "b"; py "d";
                       py "e"; py "e"; py "e"]) 3
  = [(py "e", 3); (py "b", 2); (py "a", 2)].
Proof. reflexivity. Qed.

Example keywords_ex :
  Keywords.extract_keywords Keywords.sample_stopwords Keywords.sample_tokenize
    (py "The cat and the Dog saw the cat and a big fish") 2
  = Ok [py "cat"; py "dog"].
Proof. reflexivity. Qed.

Example pdf_fallback_appends :
  Pdf.extract_text_from_pdf (Ok [Some (py "short"); None; Some []])
                            (Ok [Some (py " more ")])
  = Ok (py "short" ++ [Wrap.newline] ++ py " more").
Proof. reflexivity. Qed.

(** * Facts about the string operations *)

Module StrFacts.

Lemma lstrip_split (t : str) :
  exists l, t = l ++ lstrip t /\ blank l = true.
Proof.
  induction t as [|c r IH]; simpl.
  - exists []. split; reflexivity.
  - destruct (is_space c) eqn:Hc.
    + destruct IH as [l [Heq Hl]]. exists (c :: l). split.
      * simpl. congruence.
      * simpl. rewrite Hc. exact Hl.
    + exists []. split; reflexivity.
Qed.

Lemma lstrip_head (t : str) (c : ascii) (r : str) :
  lstrip t = c :: r -> is_space c = false.
Proof.
  induction t as [|d t IH]; simpl; [discriminate|].
  destruct (is_space d) eqn:Hd; [exact IH|].
  intros H. injection H as -> _. exact Hd.
Qed.

Lemma lstrip_fixed (c : ascii) (r : str) :
  is_space c = false -> lstrip (c :: r) = c :: r.
Proof. intros H. simpl. rewrite H. reflexivity. Qed.

Lemma lstrip_idem (t : str) : lstrip (lstrip t) = lstrip t.
Proof.
  destruct (lstrip t) as [|c r] eqn:E; [reflexivity|].
  apply lstrip_fixed. exact (lstrip_head _ _ _ E).
Qed.

Lemma lstrip_blank (t : str) : blank t = true -> lstrip t = [].
Proof.
  induction t as [|c r IH]; simpl; [reflexivity|].
  destruct (is_space c); simpl; [exact IH | discriminate].
Qed.

Lemma lstrip_nil_blank (t : str) : lstrip t = [] -> blank t = true.
Proof.
  induction t as [|c r IH]; simpl; [reflexivity|].
  destruct (is_space c); simpl; [exact IH | discriminate].
Qed.

Lemma blank_app (a b : str) : blank (a ++ b) = blank a && blank b.
Proof. apply forallb_app. Qed.

Lemma blank_rev (t : str) : blank (rev t) = blank t.
Proof.
  induction t as [|c r IH]; simpl; [reflexivity|].
  rewrite blank_app, IH. simpl. rewrite andb_true_r. apply andb_comm.
Qed.

Lemma rstrip_split (t : str) :
  exists r, t = rstrip t ++ r /\ blank r = true.
Proof.
  unfold rstrip. destruct (lstrip_split (rev t)) as [l [Heq Hl]].
  exists (rev l). split.
  - rewrite <- rev_app_distr, <- Heq, rev_involutive. reflexivity.
  - rewrite blank_rev. exact Hl.
Qed.

Lemma rstrip_idem (t : str) : rstrip (rstrip t) = rstrip t.
Proof.
  unfold rstrip. rewrite rev_involutive, lstrip_idem. reflexivity.
Qed.

Lemma rstrip_blank (t : str) : blank t = true -> rstrip t = [].
Proof.
  intros H. unfold rstrip. rewrite lstrip_blank; [reflexivity|].
  rewrite blank_rev. exact H.
Qed.

Lemma rstrip_nil_blank (t : str) : rstrip t = [] -> blank t = true.
Proof.
  unfold rstrip. intros H.
  assert (E : lstrip (rev t) = []).
  { rewrite <- (rev_involutive (lstrip (rev t))), H. reflexivity. }
  rewrite <- blank_rev. apply lstrip_nil_blank, E.
Qed.

(** [strip] yields the empty string exactly on the blank strings. *)
Lemma truthy_strip (t : str) : truthy (strip t) = negb (blank t).
Proof.
  unfold strip. destruct (lstrip_split t) as [l [Heq Hl]].
  destruct (blank t) eqn:Hb.
  - rewrite (lstrip_blank _ Hb). reflexivity.
  - destruct (rstrip (lstrip t)) eqn:E; [|reflexivity].
    apply rstrip_nil_blank in E.
    rewrite Heq, blank_app, Hl, E in Hb. discriminate.
Qed.

Lemma strip_blank (t : str) : blank t = true -> strip t = [].
Proof.
  intros H. pose proof (truthy_strip t) as E. rewrite H in E.
  destruct (strip t); [reflexivity | discriminate].
Qed.

Lemma lstrip_rstrip_lstrip (t : str) :
  lstrip (rstrip (lstrip t)) = rstrip (lstrip t).
Proof.
  destruct (rstrip_split (lstrip t)) as [r [Heq _]].
  destruct (rstrip (lstrip t)) as [|c u] eqn:E; [reflexivity|].
  apply lstrip_fixed. simpl in Heq. exact (lstrip_head _ _ _ Heq).
Qed.

Lemma strip_idem (t : str) : strip (strip t) = strip t.
Proof.
  unfold strip at 1. fold (strip t).
  unfold strip. rewrite lstrip_rstrip_lstrip. apply rstrip_idem.
Qed.

(** [strip] only removes characters: it never makes a string longer. *)
Lemma strip_length (t : str) : length (strip t) <= length t.
Proof.
  unfold strip.
  destruct (lstrip_split t) as [l [H1 _]].
  destruct (rstrip_split (lstrip t)) as [r [H2 _]].
  rewrite H1 at 2. rewrite H2 at 2. rewrite !length_app. lia.
Qed.

Lemma nonblank_app_l (a b : str) : nonblank a = true -> nonblank (a ++ b) = true.
Proof.
  unfold nonblank. rewrite !truthy_strip, blank_app.
  destruct (blank a); simpl; [discriminate | reflexivity].
Qed.

Lemma nonblank_app_r (a b : str) : nonblank b = true -> nonblank (a ++ b) = true.
Proof.
  unfold nonblank. rewrite !truthy_strip, blank_app.
  destruct (blank b); simpl; [discriminate | intros _].
  rewrite andb_false_r. reflexivity.
Qed.

Lemma nonblank_truthy (t : str) : nonblank t = true -> truthy t = true.
Proof.
  destruct t; [|reflexivity]. intros H. discriminate H.
Qed.

Lemma nonblank_strip (t : str) : nonblank (strip t) = nonblank t.
Proof. unfold nonblank. rewrite strip_idem. reflexivity. Qed.

(** ** Words *)

Lemma split_ws_blank (r : str) : blank r = true -> split_ws [] r = [].
Proof.
  induction r as [|c r IH]; simpl; [reflexivity|].
  destruct (is_space c); simpl; [exact IH | discriminate].
Qed.

Lemma split_ws_app_blank (t r cur : str) :
  blank r = true -> split_ws cur (t ++ r) = split_ws cur t.
Proof.
  intros Hr. revert cur. induction t as [|c t IH]; intros cur; simpl.
  - destruct r as [|d r]; [reflexivity|]. simpl in *.
    apply andb_true_iff in Hr as [Hd Hr]. rewrite Hd.
    rewrite (split_ws_blank _ Hr). reflexivity.
  - destruct (is_space c); [destruct (truthy cur)|]; rewrite IH; reflexivity.
Qed.

Lemma split_ws_app_space (a b cur : str) (c : ascii) :
  is_space c = true ->
  split_ws cur (a ++ c :: b) = split_ws cur a ++ split_ws [] b.
Proof.
  intros Hc. revert cur. induction a as [|d a IH]; intros cur; simpl.
  - rewrite Hc. destruct (truthy cur); reflexivity.
  - destruct (is_space d); [destruct (truthy cur)|]; rewrite IH; reflexivity.
Qed.

Lemma words_lstrip (t : str) : words (lstrip t) = words t.
Proof.
  unfold words. induction t as [|c t IH]; simpl; [reflexivity|].
  destruct (is_space c) eqn:Hc; [exact IH|].
  simpl. rewrite Hc. reflexivity.
Qed.

Lemma words_rstrip (t : str) : words (rstrip t) = words t.
Proof.
  destruct (rstrip_split t) as [r [Heq Hr]]. unfold words.
  rewrite Heq at 2. rewrite split_ws_app_blank by exact Hr. reflexivity.
Qed.

Lemma words_strip (t : str) : words (strip t) = words t.
Proof. unfold strip. rewrite words_rstrip. apply words_lstrip. Qed.

Lemma words_blank (t : str) : blank t = true -> words t = [].
Proof. apply split_ws_blank. Qed.

Lemma words_join (l : list str) :
  words (join (py " ") l) = flat_map words l.
Proof.
  induction l as [|x r IH]; [reflexivity|].
  destruct r as [|y r].
  - simpl. rewrite app_nil_r. reflexivity.
  - change (join (py " ") (x :: y :: r))
      with (x ++ " "%char :: join (py " ") (y :: r)).
    unfold words at 1. rewrite split_ws_app_space by reflexivity.
    fold (words x). fold (words (join (py " ") (y :: r))).
    rewrite IH. reflexivity.
Qed.

Lemma join_snoc (g : list str) (s : str) :
  g <> [] -> join (py " ") (g ++ [s]) = join (py " ") g ++ py " " ++ s.
Proof.
  induction g as [|x r IH]; [congruence|]. intros _.
  destruct r as [|y r].
  - reflexivity.
  - change ((x :: y :: r) ++ [s]) with (x :: (y :: r) ++ [s]).
    change (join (py " ") (x :: (y :: r) ++ [s]))
      with (x ++ py " " ++ join (py " ") ((y :: r) ++ [s])).
    rewrite IH by discriminate.
    change (join (py " ") (x :: y :: r))
      with (x ++ py " " ++ join (py " ") (y :: r)).
    rewrite <- !app_assoc. reflexivity.
Qed.

Lemma nonblank_join (g : list str) :
  g <> [] -> forallb nonblank g = true -> nonblank (join (py " ") g) = true.
Proof.
  induction g as [|x r IH]; [congruence|]. intros _ H.
  simpl in H. apply andb_true_iff in H as [Hx Hr].
  destruct r as [|y r]; [exact Hx|].
  change (join (py " ") (x :: y :: r))
    with (x ++ py " " ++ join (py " ") (y :: r)).
  apply nonblank_app_l, Hx.
Qed.

End StrFacts.

(** * Facts about the audio loop *)

Module AudioFacts.
Import StrFacts.
Import Audio (chunk_of, grouped).

Lemma fold_snoc (max : Z) (l : list str) (s : str) (st : Audio.state) :
  fold_left (Audio.step max) (l ++ [s]) st
  = Audio.step max (fold_left (Audio.step max) l st) s.
Proof. rewrite fold_left_app. reflexivity. Qed.

(** Chunks already emitted are never touched again. *)
Lemma fold_prefix (max : Z) (l : list str) (C X : list str) (cur : str) :
  fold_left (Audio.step max) l (Audio.State (C ++ X) cur)
  = let st := fold_left (Audio.step max) l (Audio.State X cur) in
    Audio.State (C ++ Audio.chunks st) (Audio.current_chunk st).
Proof.
  revert X cur. induction l as [|s l IH]; intros X cur; [reflexivity|].
  simpl fold_left. unfold Audio.step at 2 4. simpl.
  destruct ((Z.of_nat (length (cur ++ s)) >? max)%Z && truthy cur).
  - rewrite <- app_assoc. apply IH.
  - apply IH.
Qed.

Lemma run_prefix (max : Z) (l : list str) (C : list str) (cur : str) :
  Audio.run max (Audio.State C cur) l
  = C ++ Audio.run max (Audio.State [] cur) l.
Proof.
  unfold Audio.run.
  rewrite <- (app_nil_r C) at 1. rewrite fold_prefix. cbv zeta.
  unfold Audio.finish. simpl.
  destruct (truthy (strip (Audio.current_chunk _)));
    [rewrite app_assoc|]; reflexivity.
Qed.

Lemma forallb_nonblank_app (a b : list str) :
  forallb nonblank (a ++ b) = true ->
  forallb nonblank a = true /\ forallb nonblank b = true.
Proof. rewrite forallb_app. apply andb_true_iff. Qed.

Lemma open_group_truthy (g : list str) :
  forallb nonblank g = true ->
  truthy (join (py " ") g) = match g with [] => false | _ => true end.
Proof.
  intros H. destruct g as [|x r]; [reflexivity|].
  apply nonblank_truthy, nonblank_join; [discriminate | exact H].
Qed.

Lemma loop_grouped (max : Z) (l : list str) :
  forallb nonblank l = true ->
  grouped l (fold_left (Audio.step max) l Audio.init).
Proof.
  induction l as [|s l IH] using rev_ind; intros Hl.
  - exists [], []. repeat split. constructor.
  - apply forallb_nonblank_app in Hl as [Hl Hs].
    destruct (IH Hl) as [G [g [HC [Hcur [Hcat HG]]]]].
    rewrite fold_snoc.
    set (st := fold_left (Audio.step max) l Audio.init) in *.
    assert (Hg : forallb nonblank g = true).
    { rewrite <- Hcat in Hl. apply forallb_nonblank_app in Hl. tauto. }
    pose proof (open_group_truthy g Hg) as Ht. rewrite <- Hcur in Ht.
    unfold Audio.step. rewrite Ht.
    destruct g as [|x r].
    + rewrite andb_false_r. exists G, [s]. simpl.
      rewrite Hcur. repeat split; try assumption.
      rewrite <- Hcat, app_nil_r. reflexivity.
    + rewrite andb_true_r.
      destruct (Z.of_nat (length (Audio.current_chunk st ++ s)) >? max)%Z.
      * exists (G ++ [x :: r]), [s]. simpl. repeat split.
        -- rewrite map_app, HC, Hcur. reflexivity.
        -- rewrite concat_app. simpl. rewrite app_nil_r, <- Hcat.
           rewrite <- app_assoc. reflexivity.
        -- apply Forall_app. split; [exact HG|].
           constructor; [discriminate | constructor].
      * exists G, ((x :: r) ++ [s]). simpl Audio.chunks.
        simpl Audio.current_chunk. repeat split.
        -- exact HC.
        -- rewrite join_snoc by discriminate. rewrite Hcur. reflexivity.
        -- rewrite app_assoc, Hcat. reflexivity.
        -- exact HG.
Qed.

(** The chunks are the groups of a partition of the sentence list into
    non-empty runs of consecutive sentences. *)
Lemma segment_grouping (max : Z) (l : list str) :
  forallb nonblank l = true ->
  exists groups : list (list str),
    Audio.segment_sentences l max = map chunk_of groups /\
    concat groups = l /\
    Forall (fun g => g <> []) groups.
Proof.
  intros Hl. destruct (loop_grouped max l Hl) as [G [g [HC [Hcur [Hcat HG]]]]].
  unfold Audio.segment_sentences, Audio.run, Audio.finish.
  assert (Hg : forallb nonblank g = true).
  { rewrite <- Hcat in Hl. apply forallb_nonblank_app in Hl. tauto. }
  rewrite Hcur, HC. destruct g as [|x r].
  - exists G. simpl. rewrite app_nil_r in Hcat. auto.
  - assert (Hn : nonblank (join (py " ") (x :: r)) = true)
      by (apply nonblank_join; [discriminate | exact Hg]).
    unfold nonblank in Hn. rewrite Hn.
    exists (G ++ [x :: r]). repeat split.
    + rewrite map_app. reflexivity.
    + rewrite concat_app. simpl. rewrite app_nil_r. exact Hcat.
    + apply Forall_app. split; [exact HG|].
      constructor; [discriminate | constructor].
Qed.

(** The open chunk is empty or not blank. *)
Lemma loop_current (max : Z) (l : list str) :
  forallb nonblank l = true ->
  let cur := Audio.current_chunk (fold_left (Audio.step max) l Audio.init) in
  cur = [] \/ nonblank cur = true.
Proof.
  intros Hl. destruct (loop_grouped max l Hl) as [G [g [_ [Hcur [Hcat _]]]]].
  cbv zeta. rewrite Hcur. destruct g as [|x r]; [left; reflexivity|].
  right. apply nonblank_join; [discriminate|].
  rewrite <- Hcat in Hl. apply forallb_nonblank_app in Hl. tauto.
Qed.

Lemma words_chunks (G : list (list str)) :
  flat_map words (map chunk_of G) = flat_map words (concat G).
Proof.
  induction G as [|g G IH]; [reflexivity|].
  simpl. rewrite flat_map_app, IH. unfold chunk_of.
  rewrite words_strip, words_join. reflexivity.
Qed.

Lemma gt_length_app (s t : str) (max : Z) :
  (Z.of_nat (length s) > max)%Z ->
  (Z.of_nat (length (s ++ t)) >? max)%Z = true.
Proof.
  intros H. rewrite length_app. apply Z.gtb_lt. lia.
Qed.

Lemma gt_length_app_r (s t : str) (max : Z) :
  (Z.of_nat (length s) > max)%Z ->
  (Z.of_nat (length (t ++ s)) >? max)%Z = true.
Proof.
  intros H. rewrite length_app. apply Z.gtb_lt. lia.
Qed.

(** Once a sentence longer than the budget is the open chunk, it is
    emitted by itself and the loop starts afresh on what follows. *)
Lemma run_after_long (max : Z) (C : list str) (s : str) (post : list str) :
  (Z.of_nat (length s) > max)%Z ->
  nonblank s = true ->
  Audio.run max (Audio.State C s) post
  = C ++ strip s :: Audio.segment_sentences post max.
Proof.
  intros Hlen Hs. destruct post as [|t post].
  - unfold Audio.run, Audio.finish. simpl.
    unfold nonblank in Hs. rewrite Hs. reflexivity.
  - assert (E1 : Audio.step max (Audio.State C s) t
                 = Audio.State (C ++ [strip s]) t).
    { unfold Audio.step. simpl.
      rewrite (gt_length_app s t max Hlen), (nonblank_truthy _ Hs). reflexivity. }
    assert (E2 : Audio.step max Audio.init t = Audio.State [] t).
    { unfold Audio.step. simpl. rewrite andb_false_r. reflexivity. }
    unfold Audio.segment_sentences, Audio.run. simpl fold_left.
    rewrite E1, E2.
    fold (Audio.run max (Audio.State (C ++ [strip s]) t) post).
    fold (Audio.run max (Audio.State [] t) post).
    rewrite run_prefix, <- app_assoc. reflexivity.
Qed.

Lemma step_long (max : Z) (pre : list str) (s : str) :
  forallb nonblank pre = true ->
  (Z.of_nat (length s) > max)%Z ->
  Audio.step max (fold_left (Audio.step max) pre Audio.init) s
  = Audio.State (Audio.segment_sentences pre max) s.
Proof.
  intros Hpre Hlen.
  unfold Audio.segment_sentences, Audio.run, Audio.finish.
  pose proof (loop_current max pre Hpre) as Hcur. cbv zeta in Hcur.
  destruct (fold_left (Audio.step max) pre Audio.init) as [C cur].
  simpl in *. unfold Audio.step. simpl.
  destruct Hcur as [-> | Hn].
  - simpl. rewrite andb_false_r. reflexivity.
  - rewrite (gt_length_app_r s cur max Hlen), (nonblank_truthy _ Hn).
    unfold nonblank in Hn. rewrite Hn. reflexivity.
Qed.

End AudioFacts.

(** ** Words and budget, for every list of sentences *)

Module AudioBounds.
Import StrFacts.
Import Audio (within).

Lemma flat_map_snoc (C : list str) (c : str) :
  flat_map words (C ++ [c]) = flat_map words C ++ words c.
Proof. rewrite flat_map_app. simpl. rewrite app_nil_r. reflexivity. Qed.

Lemma loop_words (max : Z) (l : list str) :
  let st := fold_left (Audio.step max) l Audio.init in
  flat_map words (Audio.chunks st) ++ words (Audio.current_chunk st)
  = flat_map words l.
Proof.
  induction l as [|s l IH] using rev_ind; [reflexivity|].
  cbv zeta in *. rewrite AudioFacts.fold_snoc.
  destruct (fold_left (Audio.step max) l Audio.init) as [C cur].
  simpl in IH. rewrite flat_map_snoc, <- IH.
  unfold Audio.step. simpl.
  destruct ((Z.of_nat (length (cur ++ s)) >? max)%Z && truthy cur); simpl.
  - rewrite flat_map_snoc, words_strip. reflexivity.
  - destruct cur as [|c cur]; simpl truthy; cbv iota.
    + change (words []) with (@nil (list ascii)). rewrite app_nil_r.
      reflexivity.
    + rewrite <- app_assoc. f_equal.
      change (py " " ++ s) with (" "%char :: s).
      unfold words. apply split_ws_app_space. reflexivity.
Qed.

(** Every word of every sentence is in the chunks, once and in order,
    whatever the sentences are. *)
Lemma segment_words (max : Z) (l : list str) :
  flat_map words (Audio.segment_sentences l max) = flat_map words l.
Proof.
  unfold Audio.segment_sentences, Audio.run, Audio.finish.
  pose proof (loop_words max l) as H. cbv zeta in H.
  destruct (fold_left (Audio.step max) l Audio.init) as [C cur].
  simpl in *. rewrite <- H.
  pose proof (truthy_strip cur) as Ht.
  destruct (truthy (strip cur)).
  - rewrite flat_map_snoc, words_strip. reflexivity.
  - destruct (blank cur) eqn:Hb; [|discriminate].
    rewrite (words_blank _ Hb), app_nil_r. reflexivity.
Qed.

Lemma within_snoc (max : Z) (l : list str) (s c : str) :
  within max l c -> within max (l ++ [s]) c.
Proof.
  intros [H | [x [Hin Hc]]]; [left; exact H|].
  right. exists x. split; [apply in_or_app; left; exact Hin | exact Hc].
Qed.

Lemma loop_budget (max : Z) (l : list str) :
  let st := fold_left (Audio.step max) l Audio.init in
  Forall (within max l) (Audio.chunks st) /\
  (Audio.current_chunk st = [] \/
   (Z.of_nat (length (Audio.current_chunk st)) <= max + 1)%Z \/
   In (Audio.current_chunk st) l).
Proof.
  induction l as [|s l IH] using rev_ind.
  - split; [constructor | left; reflexivity].
  - cbv zeta in *. rewrite AudioFacts.fold_snoc.
    destruct (fold_left (Audio.step max) l Audio.init) as [C cur].
    simpl in IH. destruct IH as [HC Hcur].
    assert (HC' : Forall (within max (l ++ [s])) C).
    { eapply Forall_impl; [|exact HC]. intros c. apply within_snoc. }
    assert (Hs : In s (l ++ [s])) by (apply in_or_app; right; left; reflexivity).
    unfold Audio.step. simpl.
    destruct (Z.gtb_spec (Z.of_nat (length (cur ++ s))) max) as [Hgt | Hle];
      simpl.
    + destruct cur as [|c cur]; simpl.
      * split; [exact HC' | right; right; exact Hs].
      * split; [|right; right; exact Hs].
        apply Forall_app. split; [exact HC'|]. constructor; [|constructor].
        pose proof (strip_length (c :: cur)) as Hsl.
        destruct Hcur as [Hnil | [Hb | Hin]]; [discriminate | left; lia |].
        right. exists (c :: cur). split; [|reflexivity].
        apply in_or_app. left. exact Hin.
    + split; [exact HC'|].
      destruct cur as [|c cur]; simpl.
      * right; right. exact Hs.
      * right; left. rewrite length_app in Hle. simpl in *.
        rewrite length_app. simpl. lia.
Qed.

Lemma segment_budget (max : Z) (l : list str) :
  Forall (within max l) (Audio.segment_sentences l max).
Proof.
  unfold Audio.segment_sentences, Audio.run, Audio.finish.
  pose proof (loop_budget max l) as H. cbv zeta in H.
  destruct (fold_left (Audio.step max) l Audio.init) as [C cur].
  simpl in *. destruct H as [HC Hcur].
  destruct (truthy (strip cur)) eqn:Ht; [|exact HC].
  apply Forall_app. split; [exact HC|]. constructor; [|constructor].
  pose proof (strip_length cur) as Hsl.
  destruct Hcur as [Hnil | [Hb | Hin]].
  - subst cur. discriminate Ht.
  - left. lia.
  - right. exists cur. split; [exact Hin | reflexivity].
Qed.

End AudioBounds.

(** * Facts about the fixed-width fallback *)

Module FallbackFacts.
Import Fallback (window, count).

Lemma window_firstn (n : nat) (text : str) (k : nat) :
  window n text k = firstn n (skipn (k * n) text).
Proof.
  unfold window, slice. f_equal. lia.
Qed.

Lemma window_succ (n : nat) (text : str) (k : nat) :
  window n text (S k) = window n (skipn n text) k.
Proof.
  rewrite !window_firstn, skipn_skipn. f_equal. f_equal. lia.
Qed.

Lemma windows_concat (n m : nat) (text : str) :
  length text <= m * n ->
  concat (map (window n text) (seq 0 m)) = text.
Proof.
  revert text. induction m as [|m IH]; intros text Hlen.
  - simpl in *. destruct text; [reflexivity | simpl in Hlen; lia].
  - simpl seq. rewrite <- seq_shift. cbn [map concat]. rewrite map_map.
    rewrite (map_ext _ _ (window_succ n text)).
    rewrite IH by (rewrite length_skipn; simpl in Hlen; lia).
    rewrite window_firstn. simpl skipn. apply firstn_skipn.
Qed.

Lemma window_length (n : nat) (text : str) (k : nat) :
  length (window n text k) = Nat.min n (length text - k * n).
Proof.
  rewrite window_firstn, length_firstn, length_skipn. reflexivity.
Qed.

Lemma count_covers (stop n : nat) : 0 < n -> stop <= count stop n * n.
Proof.
  intros Hn. unfold count.
  pose proof (Nat.div_mod_eq (stop + n - 1) n) as E.
  pose proof (Nat.mod_upper_bound (stop + n - 1) n) as U. nia.
Qed.

Lemma count_tight (stop n k : nat) : 0 < n -> k < count stop n -> k * n < stop.
Proof.
  intros Hn. unfold count. intros Hk.
  pose proof (Nat.div_mod_eq (stop + n - 1) n) as E.
  pose proof (Nat.mod_upper_bound (stop + n - 1) n) as U. nia.
Qed.

Lemma range0_windows (text : str) (n : nat) :
  map (fun i => slice text i (i + n)) (Fallback.range0 (length text) n)
  = map (window n text) (seq 0 (count (length text) n)).
Proof.
  unfold Fallback.range0. rewrite map_map. reflexivity.
Qed.

End FallbackFacts.

(** * Facts about the page loop *)

Module StoryFacts.
Import StrFacts.
Import StorySpec.

Lemma page_length_snoc (page : list str) (s : str) :
  page_length (page ++ [s]) = page_length page + length s.
Proof.
  unfold page_length. rewrite map_app, list_sum_app.
  change (list_sum (map (@length ascii) [s])) with (length s + 0).
  rewrite Nat.add_0_r. reflexivity.
Qed.

(** The decision of the source, written out as a proposition. *)
Lemma should_new_page_iff (page : list str) (len : nat) (s : str) :
  Story.should_new_page page len s = true <->
  4 <= length page \/
  (300 < len /\ 2 <= length page) \/
  (3 <= length page /\ 200 < len /\
   exists marker, In marker Story.markers /\
                  contains marker (lower s) = true).
Proof.
  unfold Story.should_new_page. cbv zeta.
  pose proof (existsb_exists (fun word => contains word (lower s))
                Story.markers) as Hex.
  set (hit := existsb _ Story.markers) in *.
  destruct (Nat.leb_spec 4 (length page)), (Nat.ltb_spec 300 len),
    (Nat.leb_spec 2 (length page)), (Nat.leb_spec 3 (length page)),
    (Nat.ltb_spec 200 len); cbn [andb].
  all: try (exfalso; lia).
  all: first
    [ split;
      [ intros _; first [left; lia | right; left; lia] | reflexivity ]
    | split;
      [ discriminate | intros [Ha|[[Ha Hb]|[Ha [Hb _]]]]; lia ]
    | split;
      [ intros Ha; right; right; split; [lia | split; [lia | apply Hex, Ha]]
      | intros [Ha|[[Ha Hb]|[_ [_ Ha]]]]; [lia | lia | apply Hex, Ha] ] ].
Qed.

(** On the pages the loop can build, the source decides as the rules of
    the specification do. *)
Lemma should_new_page_closes (page : list str) (s : str) :
  length page < 4 ->
  Story.should_new_page (page ++ [s]) (page_length (page ++ [s])) s
  = closes (page ++ [s]).
Proof.
  intros Hlen. unfold Story.should_new_page, closes, closing_rule, has_marker,
    just_appended.
  rewrite last_last.
  assert (Hn : length (page ++ [s]) <= 4) by (rewrite length_app; simpl; lia).
  destruct (4 <=? length (page ++ [s])) eqn:E4.
  - apply Nat.leb_le in E4.
    replace (length (page ++ [s]) =? 4) with true
      by (symmetry; apply Nat.eqb_eq; lia).
    reflexivity.
  - apply Nat.leb_gt in E4.
    replace (length (page ++ [s]) =? 4) with false
      by (symmetry; apply Nat.eqb_neq; lia).
    destruct ((300 <? page_length (page ++ [s])) && (2 <=? length (page ++ [s])));
      [reflexivity|].
    destruct ((3 <=? length (page ++ [s])) && (200 <? page_length (page ++ [s])));
      cbn [andb]; [|reflexivity].
    match goal with
    | |- context [existsb ?f ?l] => destruct (existsb f l); reflexivity
    end.
Qed.

Lemma closes_bounds (page : list str) :
  closes page = true -> 2 <= length page.
Proof.
  unfold closes, closing_rule.
  destruct (Nat.eqb_spec (length page) 4); [lia|].
  destruct (Nat.leb_spec 2 (length page)); [lia|].
  destruct (Nat.leb_spec 3 (length page)); [lia|].
  rewrite andb_false_r. cbn [andb]. discriminate.
Qed.

Lemma not_closes_short (page : list str) :
  closes page = false -> length page <> 4.
Proof.
  unfold closes, closing_rule. intros H E.
  apply Nat.eqb_eq in E. rewrite E in H. discriminate.
Qed.

(** The loop of the source computes the pages of [StorySpec.group]. *)
Lemma run_group (sentences : list str) (st : Story.state) :
  Story.current_length st = page_length (Story.current_page st) ->
  length (Story.current_page st) < 4 ->
  Story.run st sentences
  = Story.pages st
    ++ map (join (py " ")) (group (Story.current_page st) sentences).
Proof.
  revert st. induction sentences as [|s rest IH]; intros [P page len] Hlen Hn;
    simpl in Hlen, Hn.
  - unfold Story.run, Story.finish. simpl.
    destruct page; simpl; [rewrite app_nil_r|]; reflexivity.
  - unfold Story.run. simpl fold_left.
    fold (Story.run (Story.step (Story.State P page len) s) rest).
    unfold Story.step. simpl Story.pages. simpl Story.current_page.
    simpl Story.current_length.
    subst len. rewrite <- page_length_snoc.
    rewrite (should_new_page_closes page s Hn).
    simpl group.
    destruct (closes (page ++ [s])) eqn:Ec.
    + rewrite IH; simpl; [|reflexivity|lia].
      rewrite <- app_assoc. reflexivity.
    + rewrite IH; simpl; [reflexivity|reflexivity|].
      apply not_closes_short in Ec. rewrite length_app in *. simpl in *. lia.
Qed.

Lemma paginate_sentences_spec (sentences : list str) :
  Story.paginate_sentences sentences = paginate sentences.
Proof.
  unfold Story.paginate_sentences, paginate.
  rewrite run_group; simpl; [reflexivity | reflexivity | lia].
Qed.

(** ** The groups: a partition into pages of one to four sentences *)

Lemma group_concat (sentences page : list str) :
  concat (group page sentences) = page ++ sentences.
Proof.
  revert page. induction sentences as [|s rest IH]; intros page; simpl.
  - destruct page; simpl; rewrite ?app_nil_r; reflexivity.
  - destruct (closes (page ++ [s])); simpl; rewrite IH.
    + rewrite <- app_assoc. reflexivity.
    + rewrite <- app_assoc. reflexivity.
Qed.

Lemma group_sizes (sentences page : list str) :
  length page < 4 ->
  Forall (fun g => 1 <= length g <= 4) (group page sentences).
Proof.
  revert page. induction sentences as [|s rest IH]; intros page Hn; simpl.
  - destruct page as [|x r]; constructor; [simpl in *; lia | constructor].
  - assert (Hs : length (page ++ [s]) = S (length page))
      by (rewrite length_app; simpl; lia).
    destruct (closes (page ++ [s])) eqn:Ec.
    + constructor; [lia | apply IH; simpl; lia].
    + apply IH. apply not_closes_short in Ec. lia.
Qed.

Lemma group_nonempty (sentences page : list str) :
  Forall (fun g => g <> []) (group page sentences).
Proof.
  revert page. induction sentences as [|s rest IH]; intros page; simpl.
  - destruct page; constructor; [discriminate | constructor].
  - destruct (closes (page ++ [s])).
    + constructor; [destruct page; discriminate | apply IH].
    + apply IH.
Qed.

(** Every page but the last one was closed by a rule. *)
Lemma group_closed (sentences page : list str) :
  Forall (fun g => closes g = true) (removelast (group page sentences)).
Proof.
  revert page. induction sentences as [|s rest IH]; intros page.
  - simpl. destruct page; constructor.
  - simpl group. destruct (closes (page ++ [s])) eqn:Ec; [|apply IH].
    specialize (IH []).
    destruct (group [] rest) as [|g gs] eqn:Eg; [constructor|].
    change (removelast ((page ++ [s]) :: g :: gs))
      with ((page ++ [s]) :: removelast (g :: gs)).
    constructor; assumption.
Qed.

Lemma words_pages (G : list (list str)) :
  flat_map words (map (join (py " ")) G) = flat_map words (concat G).
Proof.
  induction G as [|g G IH]; [reflexivity|].
  cbn [map flat_map concat]. rewrite flat_map_app, IH, words_join. reflexivity.
Qed.

End StoryFacts.

(** * Facts about [re.sub] and [clean_text] *)

Module ReFacts.
Import Normal.

(** Induction on the length of a text. *)
Lemma len_ind (P : str -> Prop) :
  (forall t, (forall u, length u < length t -> P u) -> P t) ->
  forall t, P t.
Proof.
  intros H t. remember (length t) as n eqn:E.
  revert t E. induction n as [n IH] using lt_wf_ind.
  intros t E. apply H. intros u Hu. apply (IH (length u)); [lia | reflexivity].
Qed.

Lemma skipn_take_while (p : ascii -> bool) (r : str) :
  skipn (length (take_while p r)) r = drop_while p r.
Proof.
  induction r as [|c r IH]; simpl; [reflexivity|].
  destruct (p c); simpl; [exact IH | reflexivity].
Qed.

Lemma drop_while_length (p : ascii -> bool) (r : str) :
  length (drop_while p r) <= length r.
Proof.
  induction r as [|c r IH]; simpl; [lia|].
  destruct (p c); simpl; lia.
Qed.

Lemma drop_while_next (p : ascii -> bool) (r : str) :
  next_is p (drop_while p r) = false.
Proof.
  induction r as [|c r IH]; simpl; [reflexivity|].
  destruct (p c) eqn:E; simpl; [exact IH | exact E].
Qed.

Lemma drop_while_fixed (p : ascii -> bool) (r : str) :
  next_is p r = false -> drop_while p r = r.
Proof.
  destruct r as [|c r]; simpl; [reflexivity|]. intros ->. reflexivity.
Qed.

(** Passing over [n] characters and substituting in the rest. *)
Lemma sub_from_skip (m : Re.matcher) (n : nat) (t : str) :
  Re.sub_from m n t = Re.sub m (skipn n t).
Proof.
  revert n. induction t as [|c r IH]; intros n.
  - destruct n; reflexivity.
  - destruct n as [|k]; [reflexivity|]. simpl. apply IH.
Qed.

(** The defining equation of [re.sub]: at a match, the replacement and
    then the substitution in what follows the match; otherwise the
    character and the substitution in the rest. *)
Lemma sub_cons (m : Re.matcher) (c : ascii) (r : str) :
  Re.sub m (c :: r)
  = match m (c :: r) with
    | Some (repl, n) => repl ++ Re.sub m (skipn n r)
    | None => c :: Re.sub m r
    end.
Proof.
  unfold Re.sub at 1. simpl.
  destruct (m (c :: r)) as [[repl n]|]; [|reflexivity].
  rewrite sub_from_skip. reflexivity.
Qed.

(** ** First pass *)

Lemma ws_run_space (c : ascii) (r : str) :
  is_space c = true ->
  Re.sub Re.ws_run (c :: r)
  = " "%char :: Re.sub Re.ws_run (drop_while is_space r).
Proof.
  intros Hc. rewrite sub_cons. simpl. rewrite Hc, skipn_take_while.
  reflexivity.
Qed.

Lemma ws_run_other (c : ascii) (r : str) :
  is_space c = false ->
  Re.sub Re.ws_run (c :: r) = c :: Re.sub Re.ws_run r.
Proof. intros Hc. rewrite sub_cons. simpl. rewrite Hc. reflexivity. Qed.

(** ** Second pass *)

Lemma wbp_other (c : ascii) (r : str) :
  is_space c = false ->
  Re.sub Re.ws_before_punct (c :: r) = c :: Re.sub Re.ws_before_punct r.
Proof. intros Hc. rewrite sub_cons. simpl. rewrite Hc. reflexivity. Qed.

Lemma wbp_hit (c : ascii) (r : str) (p : ascii) (r' : str) :
  is_space c = true ->
  drop_while is_space r = p :: r' ->
  is_punct p = true ->
  Re.sub Re.ws_before_punct (c :: r) = p :: Re.sub Re.ws_before_punct r'.
Proof.
  intros Hc Hd Hp. rewrite sub_cons. simpl. rewrite Hc, Hd, Hp.
  rewrite <- (skipn_skipn 1), skipn_take_while, Hd. reflexivity.
Qed.

Lemma wbp_miss (c : ascii) (r : str) :
  next_is is_punct (drop_while is_space r) = false ->
  Re.sub Re.ws_before_punct (c :: r) = c :: Re.sub Re.ws_before_punct r.
Proof.
  intros Hd. rewrite sub_cons. simpl.
  destruct (is_space c); [|reflexivity].
  destruct (drop_while is_space r) as [|p r']; [reflexivity|].
  simpl in Hd. rewrite Hd. reflexivity.
Qed.

(** ** Third pass *)

Lemma ptu_other (c : ascii) (r : str) :
  is_punct c = false ->
  Re.sub Re.punct_then_upper (c :: r) = c :: Re.sub Re.punct_then_upper r.
Proof. intros Hc. rewrite sub_cons. simpl. rewrite Hc. reflexivity. Qed.

Lemma ptu_hit (c : ascii) (r : str) (u : ascii) (r' : str) :
  is_punct c = true ->
  drop_while is_space r = u :: r' ->
  is_upper u = true ->
  Re.sub Re.punct_then_upper (c :: r)
  = c :: " "%char :: u :: Re.sub Re.punct_then_upper r'.
Proof.
  intros Hc Hd Hu. rewrite sub_cons. simpl. rewrite Hc, Hd, Hu.
  rewrite <- (skipn_skipn 1), skipn_take_while, Hd. reflexivity.
Qed.

Lemma ptu_miss (c : ascii) (r : str) :
  next_is is_upper (drop_while is_space r) = false ->
  Re.sub Re.punct_then_upper (c :: r) = c :: Re.sub Re.punct_then_upper r.
Proof.
  intros Hd. rewrite sub_cons. simpl.
  destruct (is_punct c); [|reflexivity].
  destruct (drop_while is_space r) as [|u r']; [reflexivity|].
  simpl in Hd. rewrite Hd. reflexivity.
Qed.

(** ** Fourth pass: a filter *)

Lemma special_filter (t : str) : Re.sub Re.special t = filter Re.kept t.
Proof.
  induction t as [|c r IH]; [reflexivity|].
  rewrite sub_cons. simpl. destruct (Re.kept c); simpl; rewrite IH; reflexivity.
Qed.

End ReFacts.

Module CleanFacts.
Import Normal.
Import ReFacts.

(** ** The character classes *)

Lemma classes_disjoint (c : ascii) :
  (is_punct c && is_space c) || (is_upper c && is_space c)
  || (is_upper c && is_punct c) = false.
Proof. destruct c as [[] [] [] [] [] [] [] []]; reflexivity. Qed.

Lemma punct_not_space (c : ascii) : is_punct c = true -> is_space c = false.
Proof.
  intros H. pose proof (classes_disjoint c) as D. rewrite H in D.
  destruct (is_space c); [discriminate D | reflexivity].
Qed.

Lemma upper_not_space (c : ascii) : is_upper c = true -> is_space c = false.
Proof.
  intros H. pose proof (classes_disjoint c) as D. rewrite H in D.
  destruct (is_space c); [|reflexivity].
  rewrite andb_true_r, orb_true_r in D. discriminate D.
Qed.

Lemma upper_not_punct (c : ascii) : is_upper c = true -> is_punct c = false.
Proof.
  intros H. pose proof (classes_disjoint c) as D. rewrite H in D.
  destruct (is_punct c); [|reflexivity].
  rewrite !orb_true_r in D. discriminate D.
Qed.

Lemma plain_space_eq (c : ascii) :
  plain_space c = true -> is_space c = true -> c = " "%char.
Proof.
  unfold plain_space. intros H Hc. rewrite Hc in H. simpl in H.
  apply Ascii.eqb_eq, H.
Qed.

(** ** Adjacent characters *)

Lemma no_pair_cons (p q : ascii -> bool) (a : ascii) (r : str) :
  no_pair p q (a :: r) = true <->
  p a && next_is q r = false /\ no_pair p q r = true.
Proof.
  simpl. rewrite andb_true_iff, negb_true_iff. reflexivity.
Qed.

Lemma no_pair_intro (p q : ascii -> bool) (a : ascii) (r : str) :
  p a && next_is q r = false -> no_pair p q r = true ->
  no_pair p q (a :: r) = true.
Proof. intros H1 H2. apply no_pair_cons. split; assumption. Qed.

Lemma no_pair_drop_while (p q f : ascii -> bool) (r : str) :
  no_pair p q r = true -> no_pair p q (drop_while f r) = true.
Proof.
  induction r as [|c r IH]; [reflexivity|]. intros H.
  simpl drop_while. destruct (f c); [|exact H].
  apply IH. apply no_pair_cons in H. tauto.
Qed.

Lemma no_pair_app (p q : ascii -> bool) (a b : str) :
  no_pair p q (a ++ b) = true ->
  no_pair p q a = true /\ no_pair p q b = true.
Proof.
  induction a as [|c a IH]; intros H; [split; [reflexivity | exact H]|].
  change ((c :: a) ++ b) with (c :: a ++ b) in H.
  apply no_pair_cons in H as [H1 H2]. destruct (IH H2) as [Ha Hb].
  split; [|exact Hb]. apply no_pair_intro; [|exact Ha].
  destruct a as [|d a]; [apply andb_false_r | exact H1].
Qed.

Lemma forallb_drop_while (f g : ascii -> bool) (r : str) :
  forallb f r = true -> forallb f (drop_while g r) = true.
Proof.
  induction r as [|c r IH]; [reflexivity|]. intros H.
  simpl drop_while. destruct (g c); [|exact H].
  apply IH. simpl in H. apply andb_true_iff in H. tauto.
Qed.

Lemma tail_shorter (c : ascii) (r : str) : length r < length (c :: r).
Proof. simpl. lia. Qed.

Lemma dropped_shorter (c : ascii) (r : str) :
  length (drop_while is_space r) < length (c :: r).
Proof. pose proof (drop_while_length is_space r). simpl. lia. Qed.

Lemma dropped_tail_shorter (c : ascii) {d : ascii} {r r' : str} :
  drop_while is_space r = d :: r' -> length r' < length (c :: r).
Proof.
  intros H. pose proof (drop_while_length is_space r) as L.
  rewrite H in L. simpl in *. lia.
Qed.

Lemma forallb_dropped_tail (f : ascii -> bool) {r r' : str} {d : ascii} :
  drop_while is_space r = d :: r' -> forallb f r = true ->
  f d = true /\ forallb f r' = true.
Proof.
  intros H Hf. apply (forallb_drop_while f is_space) in Hf.
  rewrite H in Hf. simpl in Hf. apply andb_true_iff in Hf. exact Hf.
Qed.

Lemma no_pair_dropped_tail {p q : ascii -> bool} {r r' : str} {d : ascii} :
  drop_while is_space r = d :: r' -> no_pair p q r = true ->
  no_pair p q r' = true.
Proof.
  intros H Hn. apply (no_pair_drop_while p q is_space) in Hn.
  rewrite H in Hn. apply no_pair_cons in Hn. tauto.
Qed.

(** ** First pass: runs of whitespace become single plain spaces *)

Local Abbreviation S1 := (Re.sub Re.ws_run).

Lemma S1_next (t : str) : next_is is_space (S1 t) = next_is is_space t.
Proof.
  destruct t as [|c r]; [reflexivity|].
  destruct (is_space c) eqn:Hc.
  - rewrite ws_run_space by exact Hc. simpl. rewrite Hc. reflexivity.
  - rewrite ws_run_other by exact Hc. reflexivity.
Qed.

Lemma S1_spaces (t : str) : no_pair is_space is_space (S1 t) = true.
Proof.
  induction t as [t IH] using len_ind. destruct t as [|c r]; [reflexivity|].
  destruct (is_space c) eqn:Hc.
  - rewrite ws_run_space by exact Hc. apply no_pair_intro.
    + rewrite S1_next, drop_while_next. reflexivity.
    + apply IH, dropped_shorter.
  - rewrite ws_run_other by exact Hc. apply no_pair_intro.
    + rewrite Hc. reflexivity.
    + apply IH, tail_shorter.
Qed.

Lemma S1_forallb (f : ascii -> bool) (t : str) :
  f " "%char = true ->
  forallb (fun c => is_space c || f c) t = true ->
  forallb f (S1 t) = true.
Proof.
  intros Hsp. induction t as [t IH] using len_ind.
  destruct t as [|c r]; [reflexivity|]. intros H.
  simpl in H. apply andb_true_iff in H as [Hc Hr].
  destruct (is_space c) eqn:Ec.
  - rewrite ws_run_space by exact Ec. simpl. rewrite Hsp. simpl.
    apply IH; [apply dropped_shorter|].
    apply forallb_drop_while, Hr.
  - rewrite ws_run_other by exact Ec. simpl. simpl in Hc. rewrite Hc. simpl.
    apply IH; [apply tail_shorter | exact Hr].
Qed.

(** ** Second pass: no whitespace is left before a punctuation mark *)

Local Abbreviation S2 := (Re.sub Re.ws_before_punct).

Lemma S2_next_space (r : str) :
  next_is is_space r = false -> next_is is_space (S2 r) = false.
Proof.
  destruct r as [|x r]; [reflexivity|]. simpl. intros Hx.
  rewrite wbp_other by exact Hx. exact Hx.
Qed.

Lemma S2_next_punct (r : str) :
  next_is is_punct (drop_while is_space r) = false ->
  next_is is_punct (S2 r) = false.
Proof.
  destruct r as [|d r]; [reflexivity|]. intros H.
  destruct (is_space d) eqn:Hd.
  - simpl drop_while in H. rewrite Hd in H.
    rewrite wbp_miss by exact H. simpl.
    destruct (is_punct d) eqn:Hp; [|reflexivity].
    apply punct_not_space in Hp. congruence.
  - rewrite wbp_other by exact Hd.
    simpl drop_while in H. rewrite Hd in H. exact H.
Qed.

(** The three ways the second pass treats the first character. *)
Lemma S2_cases (c : ascii) (r : str) :
  (S2 (c :: r) = c :: S2 r /\
   (is_space c = false \/
    next_is is_punct (drop_while is_space r) = false)) \/
  (exists p r', is_space c = true /\ drop_while is_space r = p :: r' /\
                is_punct p = true /\ S2 (c :: r) = p :: S2 r').
Proof.
  destruct (is_space c) eqn:Hc.
  - destruct (next_is is_punct (drop_while is_space r)) eqn:Hd.
    + right. destruct (drop_while is_space r) as [|p r'] eqn:E;
        [discriminate|].
      exists p, r'. simpl in Hd. repeat split; try assumption.
      apply wbp_hit; assumption.
    + left. split; [apply wbp_miss, Hd | right; reflexivity].
  - left. split; [apply wbp_other, Hc | left; reflexivity].
Qed.

Lemma S2_spaces (t : str) :
  no_pair is_space is_space t = true ->
  no_pair is_space is_space (S2 t) = true.
Proof.
  induction t as [t IH] using len_ind. destruct t as [|c r]; [reflexivity|].
  intros H. apply no_pair_cons in H as [H1 H2].
  destruct (S2_cases c r) as [[E _] | [p [r' [Hc [Hd [Hp E]]]]]]; rewrite E.
  - apply no_pair_intro; [|apply IH; [apply tail_shorter | exact H2]].
    destruct (is_space c); [|reflexivity]. simpl in *.
    apply S2_next_space, H1.
  - apply no_pair_intro.
    + rewrite (punct_not_space _ Hp). reflexivity.
    + apply IH; [exact (dropped_tail_shorter c Hd)|].
      exact (no_pair_dropped_tail Hd H2).
Qed.

Lemma S2_punct (t : str) : no_pair is_space is_punct (S2 t) = true.
Proof.
  induction t as [t IH] using len_ind. destruct t as [|c r]; [reflexivity|].
  destruct (S2_cases c r) as [[E Hm] | [p [r' [Hc [Hd [Hp E]]]]]]; rewrite E.
  - apply no_pair_intro; [|apply IH, tail_shorter].
    destruct Hm as [Hc | Hm]; [rewrite Hc; reflexivity|].
    rewrite (S2_next_punct _ Hm). apply andb_false_r.
  - apply no_pair_intro.
    + rewrite (punct_not_space _ Hp). reflexivity.
    + apply IH. exact (dropped_tail_shorter c Hd).
Qed.

Lemma S2_forallb (f : ascii -> bool) (t : str) :
  forallb f t = true -> forallb f (S2 t) = true.
Proof.
  induction t as [t IH] using len_ind. destruct t as [|c r]; [reflexivity|].
  intros H. simpl in H. apply andb_true_iff in H as [Hc Hr].
  destruct (S2_cases c r) as [[E _] | [p [r' [_ [Hd [_ E]]]]]]; rewrite E.
  - simpl. rewrite Hc. simpl. apply IH; [apply tail_shorter | exact Hr].
  - destruct (forallb_dropped_tail f Hd Hr) as [Hp Hr'].
    simpl. rewrite Hp. simpl.
    apply IH; [exact (dropped_tail_shorter c Hd) | exact Hr'].
Qed.

(** ** Third pass: a capital after a punctuation mark gets one space *)

Local Abbreviation S3 := (Re.sub Re.punct_then_upper).

(** The two ways the third pass treats the first character. *)
Lemma S3_cases (c : ascii) (r : str) :
  (S3 (c :: r) = c :: S3 r /\
   (is_punct c = false \/
    next_is is_upper (drop_while is_space r) = false)) \/
  (exists u r', is_punct c = true /\ drop_while is_space r = u :: r' /\
                is_upper u = true /\
                S3 (c :: r) = c :: " "%char :: u :: S3 r').
Proof.
  destruct (is_punct c) eqn:Hc.
  - destruct (next_is is_upper (drop_while is_space r)) eqn:Hd.
    + right. destruct (drop_while is_space r) as [|u r'] eqn:E;
        [discriminate|].
      exists u, r'. simpl in Hd. repeat split; try assumption.
      apply ptu_hit; assumption.
    + left. split; [apply ptu_miss, Hd | right; reflexivity].
  - left. split; [apply ptu_other, Hc | left; reflexivity].
Qed.

(** The third pass never changes the first character. *)
Lemma S3_next (f : ascii -> bool) (t : str) :
  next_is f (S3 t) = next_is f t.
Proof.
  destruct t as [|c r]; [reflexivity|].
  destruct (S3_cases c r) as [[E _] | [u [r' [_ [_ [_ E]]]]]]; rewrite E;
    reflexivity.
Qed.

Lemma upper_after_spaces (r : str) :
  next_is is_upper (drop_while is_space r) = false ->
  next_is is_upper r = false.
Proof.
  destruct r as [|x r]; [reflexivity|]. simpl.
  destruct (is_upper x) eqn:Hx; [|reflexivity].
  rewrite (upper_not_space _ Hx). simpl. rewrite Hx. discriminate.
Qed.

Lemma S3_keeps (p q : ascii -> bool) (t : str) :
  (forall c, is_punct c = true -> p c = false) ->
  (forall u, is_upper u = true -> p u = false /\ q u = false) ->
  no_pair p q t = true -> no_pair p q (S3 t) = true.
Proof.
  intros Hpunct Hupper.
  induction t as [t IH] using len_ind. destruct t as [|c r]; [reflexivity|].
  intros H. apply no_pair_cons in H as [H1 H2].
  destruct (S3_cases c r) as [[E _] | [u [r' [Hc [Hd [Hu E]]]]]]; rewrite E.
  - apply no_pair_intro; [rewrite S3_next; exact H1|].
    apply IH; [apply tail_shorter | exact H2].
  - destruct (Hupper u Hu) as [Hpu Hqu].
    apply no_pair_intro; [rewrite (Hpunct c Hc); reflexivity|].
    apply no_pair_intro; [simpl; rewrite Hqu; apply andb_false_r|].
    apply no_pair_intro; [rewrite Hpu; reflexivity|].
    apply IH; [exact (dropped_tail_shorter c Hd)|].
    exact (no_pair_dropped_tail Hd H2).
Qed.

Lemma S3_spaces (t : str) :
  no_pair is_space is_space t = true ->
  no_pair is_space is_space (S3 t) = true.
Proof.
  apply S3_keeps.
  - apply punct_not_space.
  - intros u Hu. split; apply upper_not_space, Hu.
Qed.

Lemma S3_punct (t : str) :
  no_pair is_space is_punct t = true ->
  no_pair is_space is_punct (S3 t) = true.
Proof.
  apply S3_keeps.
  - apply punct_not_space.
  - intros u Hu. split; [apply upper_not_space | apply upper_not_punct];
      exact Hu.
Qed.

Lemma S3_upper (t : str) : no_pair is_punct is_upper (S3 t) = true.
Proof.
  induction t as [t IH] using len_ind. destruct t as [|c r]; [reflexivity|].
  destruct (S3_cases c r) as [[E Hm] | [u [r' [Hc [Hd [Hu E]]]]]]; rewrite E.
  - apply no_pair_intro; [|apply IH, tail_shorter].
    destruct Hm as [Hc | Hm]; [rewrite Hc; reflexivity|].
    rewrite S3_next, (upper_after_spaces _ Hm). apply andb_false_r.
  - apply no_pair_intro; [apply andb_false_r|].
    apply no_pair_intro; [reflexivity|].
    apply no_pair_intro; [rewrite (upper_not_punct _ Hu); reflexivity|].
    apply IH. exact (dropped_tail_shorter c Hd).
Qed.

Lemma S3_forallb (f : ascii -> bool) (t : str) :
  f " "%char = true -> forallb f t = true -> forallb f (S3 t) = true.
Proof.
  intros Hsp. induction t as [t IH] using len_ind.
  destruct t as [|c r]; [reflexivity|].
  intros H. simpl in H. apply andb_true_iff in H as [Hc Hr].
  destruct (S3_cases c r) as [[E _] | [u [r' [_ [Hd [_ E]]]]]]; rewrite E.
  - simpl. rewrite Hc. simpl. apply IH; [apply tail_shorter | exact Hr].
  - destruct (forallb_dropped_tail f Hd Hr) as [Hu Hr'].
    simpl. rewrite Hc, Hsp, Hu. simpl.
    apply IH; [exact (dropped_tail_shorter c Hd) | exact Hr'].
Qed.

(** ** The passes leave a cleaned text as it is *)

Lemma S1_fixed (t : str) :
  forallb plain_space t = true ->
  no_pair is_space is_space t = true ->
  Re.sub Re.ws_run t = t.
Proof.
  induction t as [|c r IH]; [reflexivity|]. intros Hp Hn.
  simpl in Hp. apply andb_true_iff in Hp as [Hc Hr].
  apply no_pair_cons in Hn as [H1 H2].
  destruct (is_space c) eqn:Ec.
  - rewrite ws_run_space by exact Ec. simpl in H1.
    rewrite (drop_while_fixed _ _ H1), (IH Hr H2).
    rewrite (plain_space_eq c Hc Ec). reflexivity.
  - rewrite ws_run_other by exact Ec. rewrite (IH Hr H2). reflexivity.
Qed.

Lemma S2_fixed (t : str) :
  no_pair is_space is_space t = true ->
  no_pair is_space is_punct t = true ->
  Re.sub Re.ws_before_punct t = t.
Proof.
  induction t as [|c r IH]; [reflexivity|]. intros Hs Hp.
  apply no_pair_cons in Hs as [S1 S2]. apply no_pair_cons in Hp as [P1 P2].
  destruct (is_space c) eqn:Ec.
  - simpl in S1, P1. rewrite wbp_miss.
    + rewrite (IH S2 P2). reflexivity.
    + rewrite (drop_while_fixed _ _ S1). exact P1.
  - rewrite wbp_other by exact Ec. rewrite (IH S2 P2). reflexivity.
Qed.

Lemma S3_fixed (t : str) :
  forallb plain_space t = true ->
  no_pair is_space is_space t = true ->
  no_pair is_punct is_upper t = true ->
  S3 t = t.
Proof.
  induction t as [t IH] using len_ind. destruct t as [|c r]; [reflexivity|].
  intros Hp Hs Hu.
  destruct (S3_cases c r) as [[E _] | [u [r' [Hc [Hd [Hup E]]]]]]; rewrite E.
  - simpl in Hp. apply andb_true_iff in Hp as [_ Hr].
    apply no_pair_cons in Hs as [_ S2]. apply no_pair_cons in Hu as [_ U2].
    rewrite (IH r (tail_shorter c r) Hr S2 U2). reflexivity.
  - simpl in Hp. apply andb_true_iff in Hp as [_ Hr].
    apply no_pair_cons in Hs as [_ S2]. apply no_pair_cons in Hu as [U1 U2].
    rewrite Hc in U1. simpl in U1.
    destruct r as [|x r2]; [discriminate Hd|].
    simpl in U1. simpl in Hd. destruct (is_space x) eqn:Ex.
    + simpl in Hr. apply andb_true_iff in Hr as [Hx Hr2].
      apply no_pair_cons in S2 as [S21 S22].
      apply no_pair_cons in U2 as [_ U22].
      rewrite Ex in S21. simpl in S21.
      rewrite (drop_while_fixed _ _ S21) in Hd. subst r2.
      rewrite (plain_space_eq x Hx Ex).
      simpl in Hr2. apply andb_true_iff in Hr2 as [_ Hr'].
      apply no_pair_cons in S22 as [_ S23].
      apply no_pair_cons in U22 as [_ U23].
      rewrite (IH r'); [reflexivity | simpl; lia | assumption..].
    + injection Hd as -> _. congruence.
Qed.

Lemma filter_fixed (t : str) : all_kept t = true -> filter Re.kept t = t.
Proof.
  unfold all_kept. induction t as [|c r IH]; [reflexivity|]. simpl.
  intros H. apply andb_true_iff in H as [Hc Hr].
  rewrite Hc, (IH Hr). reflexivity.
Qed.

(** [clean_text] leaves a cleaned text as it is. *)
Lemma normal_fixed (t : str) : normal t -> clean_text t = t.
Proof.
  intros [Hk [Hp [Hs [Hsp [Hu Hst]]]]]. unfold clean_text.
  rewrite (S1_fixed t Hp Hs), (S2_fixed t Hs Hsp), (S3_fixed t Hp Hs Hu).
  rewrite special_filter, (filter_fixed t Hk). exact Hst.
Qed.

(** ** The result of [clean_text] is a cleaned text *)

Lemma strip_middle (t : str) : exists l r, t = l ++ strip t ++ r.
Proof.
  unfold strip.
  destruct (StrFacts.lstrip_split t) as [l [H1 _]].
  destruct (StrFacts.rstrip_split (lstrip t)) as [r [H2 _]].
  exists l, r. rewrite <- H2. exact H1.
Qed.

Lemma forallb_strip (f : ascii -> bool) (t : str) :
  forallb f t = true -> forallb f (strip t) = true.
Proof.
  destruct (strip_middle t) as [l [r E]]. intros H.
  rewrite E, !forallb_app in H.
  apply andb_true_iff in H as [_ H]. apply andb_true_iff in H as [H _].
  exact H.
Qed.

Lemma no_pair_strip (p q : ascii -> bool) (t : str) :
  no_pair p q t = true -> no_pair p q (strip t) = true.
Proof.
  destruct (strip_middle t) as [l [r E]]. intros H. rewrite E in H.
  apply no_pair_app in H as [_ H]. apply no_pair_app in H as [H _].
  exact H.
Qed.

Lemma plain_space_always (t : str) :
  forallb (fun c => is_space c || plain_space c) t = true.
Proof.
  apply forallb_forall. intros c _. unfold plain_space.
  destruct (is_space c); reflexivity.
Qed.

Lemma kept_or_space (t : str) :
  all_kept t = true ->
  forallb (fun c => is_space c || Re.kept c) t = true.
Proof.
  unfold all_kept. rewrite !forallb_forall. intros H c Hc.
  rewrite (H c Hc). apply orb_true_r.
Qed.

(** If the filter has nothing to remove, the result is a cleaned
    text. *)
Lemma clean_text_normal (x : str) :
  all_kept x = true -> normal (clean_text x).
Proof.
  intros Hk. unfold clean_text.
  set (t1 := Re.sub Re.ws_run x).
  set (t2 := Re.sub Re.ws_before_punct t1).
  set (t3 := Re.sub Re.punct_then_upper t2).
  assert (K3 : all_kept t3 = true).
  { apply S3_forallb; [reflexivity|]. apply S2_forallb.
    apply S1_forallb; [reflexivity | apply kept_or_space, Hk]. }
  assert (P3 : forallb plain_space t3 = true).
  { apply S3_forallb; [reflexivity|]. apply S2_forallb.
    apply S1_forallb; [reflexivity | apply plain_space_always]. }
  assert (A3 : no_pair is_space is_space t3 = true)
    by apply S3_spaces, S2_spaces, S1_spaces.
  assert (B3 : no_pair is_space is_punct t3 = true)
    by apply S3_punct, S2_punct.
  assert (C3 : no_pair is_punct is_upper t3 = true) by apply S3_upper.
  rewrite special_filter, (filter_fixed t3 K3).
  repeat split.
  - apply forallb_strip, K3.
  - apply forallb_strip, P3.
  - apply no_pair_strip, A3.
  - apply no_pair_strip, B3.
  - apply no_pair_strip, C3.
  - apply StrFacts.strip_idem.
Qed.

(** Whatever the text, the result holds kept characters only. *)
Lemma clean_text_all_kept (x : str) : all_kept (clean_text x) = true.
Proof.
  unfold clean_text. apply forallb_strip. rewrite special_filter.
  apply forallb_forall. intros c Hc. apply filter_In in Hc. tauto.
Qed.

(** From the second pass on, cleaning changes nothing any more. *)
Lemma clean_text_stable (x : str) :
  clean_text (clean_text (clean_text x)) = clean_text (clean_text x).
Proof.
  apply normal_fixed, clean_text_normal, clean_text_all_kept.
Qed.

End CleanFacts.

(** * Facts about the line wrapping of [format_text_for_storybook] *)

Module WrapFacts.
Import StrFacts.
Import Wrap (no_space).

Lemma solid_parts (w : str) :
  Wrap.solid w = true <-> truthy w = true /\ forallb no_space w = true.
Proof. unfold Wrap.solid. apply andb_true_iff. Qed.

Lemma forallb_snoc (f : ascii -> bool) (t : str) (c : ascii) :
  forallb f t = true -> f c = true -> forallb f (t ++ [c]) = true.
Proof.
  intros Ht Hc. rewrite forallb_app, Ht. simpl. rewrite Hc. reflexivity.
Qed.

Lemma split_ws_solid (t cur : str) :
  forallb no_space cur = true ->
  Forall (fun w => Wrap.solid w = true) (split_ws cur t).
Proof.
  revert cur. induction t as [|c t IH]; intros cur Hcur; simpl.
  - destruct (truthy cur) eqn:Ht; constructor; [|constructor].
    apply solid_parts. split; assumption.
  - destruct (is_space c) eqn:Hc.
    + destruct (truthy cur) eqn:Ht; [constructor|]; try (apply IH; reflexivity).
      apply solid_parts. split; assumption.
    + apply IH. apply forallb_snoc; [exact Hcur|].
      unfold no_space. rewrite Hc. reflexivity.
Qed.

(** [str.split] returns words that are not empty and hold no
    whitespace. *)
Lemma words_solid (t : str) : Forall (fun w => Wrap.solid w = true) (words t).
Proof. apply split_ws_solid. reflexivity. Qed.

Lemma split_ws_no_space (w cur : str) :
  forallb no_space w = true ->
  split_ws cur w = if truthy (cur ++ w) then [cur ++ w] else [].
Proof.
  revert cur. induction w as [|c w IH]; intros cur Hw; simpl.
  - rewrite app_nil_r. reflexivity.
  - simpl in Hw. apply andb_true_iff in Hw as [Hc Hw].
    unfold no_space in Hc. apply negb_true_iff in Hc. rewrite Hc.
    rewrite (IH _ Hw), <- app_assoc. reflexivity.
Qed.

Lemma words_of_solid (w : str) : Wrap.solid w = true -> words w = [w].
Proof.
  intros H. apply solid_parts in H as [Ht Hn]. unfold words.
  rewrite (split_ws_no_space w [] Hn). simpl. rewrite Ht. reflexivity.
Qed.

Lemma flat_map_words_solid (l : list str) :
  Forall (fun w => Wrap.solid w = true) l -> flat_map words l = l.
Proof.
  induction 1 as [|w l Hw _ IH]; [reflexivity|].
  simpl. rewrite (words_of_solid w Hw), IH. reflexivity.
Qed.

(** Splitting the words of a text again changes nothing. *)
Lemma words_words (t : str) : flat_map words (words t) = words t.
Proof. apply flat_map_words_solid, words_solid. Qed.

Lemma words_join_sep (c : ascii) (l : list str) :
  is_space c = true -> words (join [c] l) = flat_map words l.
Proof.
  intros Hc. induction l as [|x r IH]; [reflexivity|].
  destruct r as [|y r].
  - simpl. rewrite app_nil_r. reflexivity.
  - change (join [c] (x :: y :: r)) with (x ++ c :: join [c] (y :: r)).
    unfold words at 1. rewrite split_ws_app_space by exact Hc.
    fold (words x). fold (words (join [c] (y :: r))).
    rewrite IH. reflexivity.
Qed.

Lemma solid_truthy (w : str) : Wrap.solid w = true -> truthy w = true.
Proof. intros H. apply solid_parts in H. tauto. Qed.

Lemma truthy_app_l (a b : str) : truthy a = true -> truthy (a ++ b) = true.
Proof. destruct a; [discriminate | reflexivity]. Qed.

Lemma truthy_join (g : list str) :
  Forall (fun w => Wrap.solid w = true) g ->
  truthy (join (py " ") g) = match g with [] => false | _ :: _ => true end.
Proof.
  intros H. destruct g as [|x r]; [reflexivity|].
  inversion H as [|? ? Hx _]; subst. apply solid_truthy in Hx.
  destruct r as [|y r]; [exact Hx|].
  change (join (py " ") (x :: y :: r))
    with (x ++ py " " ++ join (py " ") (y :: r)).
  apply truthy_app_l, Hx.
Qed.

(** The loop builds the lines of [Wrap.groups]. *)
Lemma run_groups (max : Z) (ws : list str) (st : Wrap.state) (g : list str) :
  Forall (fun w => Wrap.solid w = true) (g ++ ws) ->
  Wrap.current_line st = join (py " ") g ->
  Wrap.run max st ws
  = Wrap.lines st ++ map (join (py " ")) (Wrap.groups max g ws).
Proof.
  revert st g. induction ws as [|w rest IH]; intros [L cur] g Hs Hcur;
    cbn [Wrap.current_line] in Hcur; subst cur.
  - rewrite app_nil_r in Hs. unfold Wrap.run, Wrap.finish.
    cbn [fold_left Wrap.current_line Wrap.lines Wrap.groups].
    rewrite (truthy_join g Hs).
    destruct g; cbn [map]; [rewrite app_nil_r|]; reflexivity.
  - assert (Hg : Forall (fun w => Wrap.solid w = true) g).
    { apply Forall_app in Hs. tauto. }
    assert (Hs' : Forall (fun x => Wrap.solid x = true) ((g ++ [w]) ++ rest)).
    { rewrite <- app_assoc. exact Hs. }
    assert (Hw : Forall (fun x => Wrap.solid x = true) ([w] ++ rest)).
    { apply Forall_app in Hs. tauto. }
    unfold Wrap.run. cbn [fold_left].
    fold (Wrap.run max (Wrap.step max (Wrap.State L (join (py " ") g)) w) rest).
    unfold Wrap.step. cbn [Wrap.lines Wrap.current_line Wrap.groups].
    rewrite (truthy_join g Hg).
    destruct (Z.of_nat (length (join (py " ") g ++ py " " ++ w)) <=? max)%Z.
    + rewrite (IH _ (g ++ [w]) Hs'); [reflexivity|].
      simpl. destruct g as [|x r]; [reflexivity|].
      rewrite join_snoc by discriminate. reflexivity.
    + destruct g as [|x r].
      * rewrite (IH _ [w] Hw); reflexivity.
      * rewrite (IH _ [w] Hw); [|reflexivity].
        simpl Wrap.lines. rewrite <- app_assoc. reflexivity.
Qed.

Lemma wrap_words_groups (max : Z) (ws : list str) :
  Forall (fun w => Wrap.solid w = true) ws ->
  Wrap.wrap_words ws max = map (join (py " ")) (Wrap.groups max [] ws).
Proof.
  intros H. unfold Wrap.wrap_words.
  rewrite (run_groups max ws Wrap.init [] H); reflexivity.
Qed.

(** The result is the lines of the groups, joined by line breaks. *)
Lemma format_groups (text : str) (font_size max : Z) :
  format_text_for_storybook text font_size max
  = join [Wrap.newline]
      (map (join (py " ")) (Wrap.groups max [] (words text))).
Proof.
  unfold format_text_for_storybook. cbv zeta.
  rewrite wrap_words_groups by apply words_solid. reflexivity.
Qed.

(** ** The groups *)

Lemma groups_concat (max : Z) (ws g : list str) :
  concat (Wrap.groups max g ws) = g ++ ws.
Proof.
  revert g. induction ws as [|w rest IH]; intros g; simpl.
  - destruct g; simpl; rewrite ?app_nil_r; reflexivity.
  - destruct (_ <=? max)%Z.
    + rewrite IH, <- app_assoc. reflexivity.
    + destruct g as [|x r]; simpl; rewrite IH; reflexivity.
Qed.

Lemma groups_budget (max : Z) (ws g : list str) :
  g = [] \/ length g = 1 \/ Wrap.fits max g ->
  Forall (fun h => h <> [] /\ (length h = 1 \/ Wrap.fits max h))
         (Wrap.groups max g ws).
Proof.
  revert g. induction ws as [|w rest IH]; intros g Hg; cbn [Wrap.groups].
  - destruct g as [|x r]; constructor; [|constructor].
    split; [discriminate|]. destruct Hg as [Hg|Hg]; [discriminate | exact Hg].
  - destruct (Z.leb_spec (Z.of_nat (length (join (py " ") g ++ py " " ++ w)))
                max) as [Hle|Hgt].
    + apply IH. destruct g as [|x r]; [right; left; reflexivity|].
      right; right. unfold Wrap.fits.
      rewrite join_snoc by discriminate. exact Hle.
    + destruct g as [|x r].
      * apply IH. right; left. reflexivity.
      * constructor.
        -- split; [discriminate|].
           destruct Hg as [Hg|Hg]; [discriminate | exact Hg].
        -- apply IH. right; left. reflexivity.
Qed.

(** The first group starts with the words already on the line. *)
Lemma groups_head (max : Z) (ws g : list str) :
  g <> [] -> exists more tl, Wrap.groups max g ws = (g ++ more) :: tl.
Proof.
  revert g. induction ws as [|w rest IH]; intros g Hg; cbn [Wrap.groups].
  - destruct g as [|x r]; [congruence|]. exists [], [].
    rewrite app_nil_r. reflexivity.
  - destruct (_ <=? max)%Z.
    + destruct (IH (g ++ [w])) as [more [tl E]];
        [destruct g; discriminate|].
      exists (w :: more), tl. rewrite E, <- app_assoc. reflexivity.
    + destruct g as [|x r]; [congruence|].
      exists [], (Wrap.groups max [w] rest). rewrite app_nil_r. reflexivity.
Qed.

Lemma groups_forced (max : Z) (ws g : list str) :
  Wrap.forced_breaks max (Wrap.groups max g ws).
Proof.
  revert g. induction ws as [|w rest IH]; intros g; cbn [Wrap.groups].
  - destruct g; cbn [Wrap.forced_breaks]; auto.
  - destruct (Z.leb_spec (Z.of_nat (length (join (py " ") g ++ py " " ++ w)))
                max) as [Hle|Hgt]; [apply IH|].
    destruct g as [|x r]; [apply IH|].
    destruct (groups_head max rest [w]) as [more [tl E]]; [discriminate|].
    pose proof (IH [w]) as F. rewrite E in *.
    change ([w] ++ more) with (w :: more) in *.
    cbn [Wrap.forced_breaks] in *. split; [lia | exact F].
Qed.

(** ** The lines *)

Lemma lstrip_fixed_next (t : str) :
  Normal.next_is is_space t = false -> lstrip t = t.
Proof.
  destruct t as [|c r]; [reflexivity|]. simpl. intros ->. reflexivity.
Qed.

Lemma strip_fixed (t : str) :
  Normal.next_is is_space t = false ->
  Normal.next_is is_space (rev t) = false ->
  strip t = t.
Proof.
  intros H1 H2. unfold strip, rstrip.
  rewrite (lstrip_fixed_next t H1), (lstrip_fixed_next (rev t) H2).
  apply rev_involutive.
Qed.

Lemma next_is_app (p : ascii -> bool) (a b : str) :
  truthy a = true -> Normal.next_is p (a ++ b) = Normal.next_is p a.
Proof. destruct a; [discriminate | reflexivity]. Qed.

Lemma solid_ends (w : str) :
  Wrap.solid w = true ->
  Normal.next_is is_space w = false /\
  Normal.next_is is_space (rev w) = false.
Proof.
  intros H. apply solid_parts in H as [_ Hn].
  assert (G : forall t, forallb no_space t = true ->
                        Normal.next_is is_space t = false).
  { intros [|c r]; [reflexivity|]. simpl. intros E.
    apply andb_true_iff in E as [E _]. apply negb_true_iff, E. }
  split; apply G; [exact Hn|].
  rewrite forallb_forall in *. intros c Hc. apply Hn, in_rev, Hc.
Qed.

Lemma truthy_rev (t : str) : truthy (rev t) = truthy t.
Proof.
  destruct t as [|c r]; [reflexivity|]. simpl.
  destruct (rev r); reflexivity.
Qed.

(** A line made of words: not empty, no whitespace at either end, and
    no whitespace inside but single plain spaces. *)
Lemma line_clean (g : list str) :
  g <> [] -> Forall (fun w => Wrap.solid w = true) g ->
  let l := join (py " ") g in
  truthy l = true /\
  Normal.next_is is_space l = false /\
  Normal.next_is is_space (rev l) = false /\
  forallb Normal.plain_space l = true.
Proof.
  induction g as [|x r IH]; [congruence|]. intros _ H.
  inversion H as [|? ? Hx Hr]; subst.
  destruct (solid_ends x Hx) as [Hh Hl].
  assert (Hp : forallb Normal.plain_space x = true).
  { apply solid_parts in Hx as [_ Hn]. rewrite forallb_forall in *.
    intros c Hc. unfold Normal.plain_space.
    specialize (Hn c Hc). unfold no_space in Hn. rewrite Hn. reflexivity. }
  destruct r as [|y r]; cbv zeta.
  - simpl. repeat split; try assumption. apply solid_truthy, Hx.
  - destruct (IH ltac:(discriminate) Hr) as [It [_ [Il Ip]]].
    change (join (py " ") (x :: y :: r))
      with (x ++ " "%char :: join (py " ") (y :: r)).
    repeat split.
    + apply truthy_app_l, solid_truthy, Hx.
    + rewrite next_is_app by apply solid_truthy, Hx. exact Hh.
    + rewrite rev_app_distr. simpl rev. rewrite <- app_assoc.
      rewrite next_is_app by (rewrite truthy_rev; exact It). exact Il.
    + rewrite forallb_app, Hp. simpl. exact Ip.
Qed.

(** Splitting the result at whitespace gives the words of the text. *)
Lemma format_words (text : str) (font_size max : Z) :
  words (format_text_for_storybook text font_size max) = words text.
Proof.
  rewrite format_groups.
  rewrite words_join_sep by reflexivity.
  rewrite StoryFacts.words_pages, groups_concat.
  apply words_words.
Qed.

End WrapFacts.

(** * Facts about the cuts between chunks, and about the pages *)

Module AudioGroupFacts.
Import StrFacts.
Import AudioGroups.

Lemma chunk_run_groups (max : Z) (ss : list str) (C : list str) (g : list str) :
  forallb nonblank (g ++ ss) = true ->
  Audio.run max (Audio.State C (join (py " ") g)) ss
  = C ++ map Audio.chunk_of (groups max g ss).
Proof.
  revert C g. induction ss as [|s rest IH]; intros C g Hnb.
  - rewrite app_nil_r in Hnb. unfold Audio.run, Audio.finish.
    cbn [fold_left Audio.current_chunk Audio.chunks groups].
    destruct g as [|x r]; [cbn; rewrite app_nil_r; reflexivity|].
    pose proof (nonblank_join (x :: r) ltac:(discriminate) Hnb) as Hj.
    unfold nonblank in Hj. rewrite Hj. reflexivity.
  - assert (Hg : forallb nonblank g = true).
    { apply AudioFacts.forallb_nonblank_app in Hnb. tauto. }
    unfold Audio.run. cbn [fold_left].
    fold (Audio.run max (Audio.step max (Audio.State C (join (py " ") g)) s)
            rest).
    unfold Audio.step. cbn [Audio.current_chunk Audio.chunks groups].
    rewrite (AudioFacts.open_group_truthy g Hg).
    change (match g with [] => false | _ :: _ => true end) with (nonempty g).
    destruct ((Z.of_nat (length (join (py " ") g ++ s)) >? max)%Z
              && nonempty g) eqn:E.
    + assert (Hs : forallb nonblank ([s] ++ rest) = true).
      { apply AudioFacts.forallb_nonblank_app in Hnb. tauto. }
      pose proof (IH (C ++ [strip (join (py " ") g)]) [s] Hs) as E1.
      cbn [join] in E1. rewrite E1.
      cbn [map]. rewrite <- app_assoc. reflexivity.
    + replace (join (py " ") g ++ (if nonempty g then py " " ++ s else s))
        with (join (py " ") (g ++ [s])).
      * apply IH. rewrite <- app_assoc. exact Hnb.
      * destruct g as [|x r]; [reflexivity|].
        rewrite join_snoc by discriminate. reflexivity.
Qed.

Lemma chunk_groups_concat (max : Z) (ss g : list str) :
  concat (groups max g ss) = g ++ ss.
Proof.
  revert g. induction ss as [|s rest IH]; intros g; cbn [groups].
  - destruct g; cbn; rewrite ?app_nil_r; reflexivity.
  - destruct (_ && nonempty g).
    + cbn [concat]. rewrite IH. reflexivity.
    + rewrite IH, <- app_assoc. reflexivity.
Qed.

Lemma chunk_groups_head (max : Z) (ss g : list str) :
  g <> [] -> exists more tl, groups max g ss = (g ++ more) :: tl.
Proof.
  revert g. induction ss as [|s rest IH]; intros g Hg; cbn [groups].
  - destruct g as [|x r]; [congruence|]. exists [], [].
    rewrite app_nil_r. reflexivity.
  - destruct (_ && nonempty g).
    + exists [], (groups max [s] rest). rewrite app_nil_r. reflexivity.
    + destruct (IH (g ++ [s])) as [more [tl E]];
        [destruct g; discriminate|].
      exists (s :: more), tl. rewrite E, <- app_assoc. reflexivity.
Qed.

Lemma chunk_groups_forced (max : Z) (ss g : list str) :
  forced_cuts max (groups max g ss).
Proof.
  revert g. induction ss as [|s rest IH]; intros g; cbn [groups].
  - destruct g; cbn [forced_cuts]; auto.
  - destruct (Z.gtb_spec (Z.of_nat (length (join (py " ") g ++ s))) max)
      as [Hgt|Hle]; cbn [andb]; [|apply IH].
    destruct (nonempty g); [|apply IH].
    destruct (chunk_groups_head max rest [s]) as [more [tl E]]; [discriminate|].
    pose proof (IH [s]) as F. rewrite E in *.
    change ([s] ++ more) with (s :: more) in *.
    cbn [forced_cuts] in *. split; [lia | exact F].
Qed.

End AudioGroupFacts.

Module PageFacts.
Import StrFacts.
Import Ends (firm).

(** A string with a first and a last character that are not whitespace. *)
Lemma strip_ends (t : str) :
  Normal.next_is is_space (strip t) = false /\
  Normal.next_is is_space (rev (strip t)) = false.
Proof.
  split.
  - pose proof (lstrip_rstrip_lstrip t) as E. fold (strip t) in E.
    destruct (strip t) as [|c r] eqn:Es; [reflexivity|].
    simpl. exact (lstrip_head _ _ _ E).
  - pose proof (rstrip_idem (lstrip t)) as E. fold (strip t) in E.
    unfold rstrip in E at 1.
    assert (E' : lstrip (rev (strip t)) = rev (strip t)).
    { rewrite <- (rev_involutive (lstrip (rev (strip t)))), E. reflexivity. }
    destruct (rev (strip t)) as [|c r] eqn:Er; [reflexivity|].
    simpl. exact (lstrip_head _ _ _ E').
Qed.

Lemma join_firm (g : list str) :
  g <> [] -> Forall firm g -> firm (join (py " ") g).
Proof.
  induction g as [|x r IH]; [congruence|]. intros _ H.
  inversion H as [|? ? [Hx [Hh Hl]] Hr]; subst.
  destruct r as [|y r]; [repeat split; assumption|].
  destruct (IH ltac:(discriminate) Hr) as [It [_ Il]].
  change (join (py " ") (x :: y :: r))
    with (x ++ " "%char :: join (py " ") (y :: r)).
  repeat split.
  - apply WrapFacts.truthy_app_l, Hx.
  - rewrite WrapFacts.next_is_app by exact Hx. exact Hh.
  - rewrite rev_app_distr. simpl rev. rewrite <- app_assoc.
    rewrite WrapFacts.next_is_app by (rewrite WrapFacts.truthy_rev; exact It).
    exact Il.
Qed.

Lemma firm_strip (x : str) : firm x -> x <> [] /\ strip x = x.
Proof.
  intros [Ht [Hh Hl]]. split.
  - intros E. rewrite E in Ht. discriminate.
  - apply WrapFacts.strip_fixed; assumption.
Qed.

(** The sentences of the page loop are firm. *)
Lemma nonempty_sentences_firm (l : list str) :
  Forall firm (Story.nonempty_sentences l).
Proof.
  unfold Story.nonempty_sentences. apply Forall_map, Forall_forall.
  intros s Hs. apply filter_In in Hs as [_ Hs].
  destruct (strip_ends s) as [Hh Hl]. repeat split; assumption.
Qed.

Lemma concat_length_upper (gs : list (list str)) :
  Forall (fun g => 1 <= length g <= 4) gs ->
  length (concat gs) <= 4 * length gs.
Proof.
  induction 1 as [|g gs Hg _ IH]; [reflexivity|].
  simpl. rewrite length_app. lia.
Qed.

Lemma concat_length_lower (gs : list (list str)) :
  gs <> [] ->
  Forall (fun g => 1 <= length g <= 4) gs ->
  Forall (fun g => 2 <= length g) (removelast gs) ->
  2 * length gs <= length (concat gs) + 1.
Proof.
  induction gs as [|g gs IH]; [congruence|]. intros _ H1 H2.
  inversion H1 as [|? ? Hg H1']; subst.
  destruct gs as [|h gs].
  - simpl. rewrite app_nil_r. lia.
  - change (removelast (g :: h :: gs)) with (g :: removelast (h :: gs)) in H2.
    inversion H2 as [|? ? Hg2 H2']; subst.
    specialize (IH ltac:(discriminate) H1' H2').
    change (concat (g :: h :: gs)) with (g ++ concat (h :: gs)).
    rewrite length_app. simpl length in *. lia.
Qed.

End PageFacts.

(** * Facts about [Counter], [most_common] and the page texts *)

Module KeywordFacts.
Import Keywords.

Lemma str_eqb_eq (a b : str) : str_eqb a b = true <-> a = b.
Proof.
  unfold str_eqb. destruct (str_dec a b); split; congruence.
Qed.

Lemma str_eqb_refl (a : str) : str_eqb a a = true.
Proof. apply str_eqb_eq. reflexivity. Qed.

Lemma str_eqb_neq (a b : str) : a <> b -> str_eqb a b = false.
Proof.
  intros H. destruct (str_eqb a b) eqn:E; [|reflexivity].
  apply str_eqb_eq in E. contradiction.
Qed.

Lemma mem_In (w : str) (l : list str) : mem w l = true <-> In w l.
Proof.
  unfold mem. rewrite existsb_exists. split.
  - intros [x [Hx E]]. apply str_eqb_eq in E. subst. exact Hx.
  - intros H. exists w. split; [exact H | apply str_eqb_refl].
Qed.

(** ** Counting *)

Lemma incr_count (w w' : str) (c : list (str * nat)) :
  count_of (incr w c) w'
  = if str_eqb w w' then S (count_of c w') else count_of c w'.
Proof.
  induction c as [|[k n] r IH]; simpl.
  - destruct (str_eqb w w'); reflexivity.
  - destruct (str_eqb k w) eqn:Ekw; simpl.
    + apply str_eqb_eq in Ekw. subst k.
      destruct (str_eqb w w'); reflexivity.
    + rewrite IH. destruct (str_eqb k w') eqn:Ekw'; [|reflexivity].
      apply str_eqb_eq in Ekw'. subst k.
      destruct (str_eqb w w') eqn:Eww'; [|reflexivity].
      apply str_eqb_eq in Eww'. subst w. rewrite str_eqb_refl in Ekw.
      discriminate.
Qed.

Lemma incr_keys (w k : str) (c : list (str * nat)) :
  In k (map fst (incr w c)) <-> k = w \/ In k (map fst c).
Proof.
  induction c as [|[k' n] r IH]; simpl.
  - intuition congruence.
  - destruct (str_eqb k' w) eqn:E; simpl.
    + apply str_eqb_eq in E. subst k'. intuition congruence.
    + rewrite IH. tauto.
Qed.

Lemma incr_nodup (w : str) (c : list (str * nat)) :
  NoDup (map fst c) -> NoDup (map fst (incr w c)).
Proof.
  induction c as [|[k n] r IH]; simpl; intros H.
  - constructor; [simpl; tauto | constructor].
  - inversion H as [|? ? Hk Hr]; subst.
    destruct (str_eqb k w) eqn:E; simpl.
    + constructor; assumption.
    + constructor; [|apply IH, Hr].
      rewrite incr_keys. intros [-> | Hin]; [|contradiction].
      rewrite str_eqb_refl in E. discriminate.
Qed.

Lemma occurrences_cons (x w : str) (l : list str) :
  occurrences (x :: l) w
  = if str_eqb x w then S (occurrences l w) else occurrences l w.
Proof.
  unfold occurrences, str_eqb. simpl. destruct (str_dec x w); reflexivity.
Qed.

Lemma fold_incr (l : list str) (c0 : list (str * nat)) :
  let c := fold_left (fun c w => incr w c) l c0 in
  (forall w, count_of c w = count_of c0 w + occurrences l w) /\
  (forall k, In k (map fst c) <-> In k (map fst c0) \/ In k l) /\
  (NoDup (map fst c0) -> NoDup (map fst c)).
Proof.
  revert c0. induction l as [|x l IH]; intros c0; cbv zeta.
  - simpl. repeat split; intros; try tauto. unfold occurrences. simpl. lia.
  - simpl fold_left. destruct (IH (incr x c0)) as [H1 [H2 H3]].
    repeat split.
    + intros w. rewrite H1, incr_count, occurrences_cons.
      destruct (str_eqb x w); lia.
    + rewrite H2, incr_keys. simpl. intuition (subst; auto).
    + rewrite H2, incr_keys. simpl. intuition (subst; auto).
    + intros Hn. apply H3, incr_nodup, Hn.
Qed.

Lemma entry_count (c : list (str * nat)) (k : str) (n : nat) :
  NoDup (map fst c) -> In (k, n) c -> count_of c k = n.
Proof.
  induction c as [|[k' n'] r IH]; simpl; [tauto|]. intros Hn Hin.
  inversion Hn as [|? ? Hk Hr]; subst.
  destruct Hin as [E | Hin].
  - injection E as -> ->. rewrite str_eqb_refl. reflexivity.
  - rewrite str_eqb_neq; [apply IH; assumption|].
    intros ->. apply Hk. apply (in_map fst) in Hin. exact Hin.
Qed.

(** A counter holds each distinct element once, with the number of its
    occurrences. *)
Lemma Counter_spec (l : list str) :
  NoDup (map fst (Counter l)) /\
  (forall k, In k (map fst (Counter l)) <-> In k l) /\
  (forall k n, In (k, n) (Counter l) -> n = occurrences l k).
Proof.
  unfold Counter. destruct (fold_incr l []) as [H1 [H2 H3]].
  cbv zeta in *. split; [apply H3; constructor|]. split.
  - intros k. rewrite H2. simpl. tauto.
  - intros k n Hin. rewrite <- (entry_count _ k n (H3 (NoDup_nil _)) Hin).
    rewrite H1. reflexivity.
Qed.

(** ** Sorting *)

Lemma insert_perm (x : str * nat) (l : list (str * nat)) :
  Permutation (insert x l) (x :: l).
Proof.
  induction l as [|y r IH]; simpl; [reflexivity|].
  destruct (snd x <? snd y); [|reflexivity].
  rewrite IH. apply perm_swap.
Qed.

Lemma sort_perm (l : list (str * nat)) : Permutation (sort l) l.
Proof.
  induction l as [|x r IH]; simpl; [reflexivity|].
  rewrite insert_perm, IH. reflexivity.
Qed.

Lemma insert_sorted (x : str * nat) (l : list (str * nat)) :
  StronglySorted by_count l -> StronglySorted by_count (insert x l).
Proof.
  induction 1 as [|y r Hr IH Hy]; simpl.
  - constructor; constructor.
  - destruct (Nat.ltb_spec (snd x) (snd y)).
    + constructor; [exact IH|].
      eapply Permutation_Forall; [symmetry; apply insert_perm|].
      constructor; [unfold by_count; lia | exact Hy].
    + constructor; [constructor; assumption|].
      constructor; [unfold by_count; lia|].
      eapply Forall_impl; [|exact Hy]. unfold by_count. intros; lia.
Qed.

Lemma sort_sorted (l : list (str * nat)) : StronglySorted by_count (sort l).
Proof.
  induction l as [|x r IH]; simpl; [constructor | apply insert_sorted, IH].
Qed.

Lemma firstn_sorted {A : Type} (R : A -> A -> Prop) (n : nat) (l : list A) :
  StronglySorted R l -> StronglySorted R (firstn n l).
Proof.
  intros H. revert n. induction H as [|x r Hr IH Hx]; intros n.
  - rewrite firstn_nil. constructor.
  - destruct n as [|n]; simpl; [constructor|].
    constructor; [apply IH|].
    rewrite Forall_forall in *. intros y Hy. apply Hx.
    rewrite <- (firstn_skipn n r). apply in_or_app. left. exact Hy.
Qed.

Lemma firstn_incl {A : Type} (n : nat) (l : list A) (x : A) :
  In x (firstn n l) -> In x l.
Proof.
  intros H. rewrite <- (firstn_skipn n l). apply in_or_app. left. exact H.
Qed.

Lemma firstn_nodup {A : Type} (n : nat) (l : list A) :
  NoDup l -> NoDup (firstn n l).
Proof.
  intros H. rewrite <- (firstn_skipn n l) in H.
  apply NoDup_app_remove_r in H. exact H.
Qed.

Lemma sorted_keys (f : str -> nat) (l : list (str * nat)) :
  StronglySorted by_count l ->
  Forall (fun p => snd p = f (fst p)) l ->
  StronglySorted (fun a b => f b <= f a) (map fst l).
Proof.
  induction 1 as [|x r Hr IH Hx]; intros Hf; simpl; [constructor|].
  inversion Hf as [|? ? Hfx Hfr]; subst.
  constructor; [apply IH, Hfr|].
  apply Forall_map. rewrite Forall_forall in *. intros y Hy.
  specialize (Hx y Hy). specialize (Hfr y Hy). unfold by_count in Hx. lia.
Qed.

Lemma occurrences_filter (f : str -> bool) (l : list str) (w : str) :
  f w = true -> occurrences (filter f l) w = occurrences l w.
Proof.
  intros Hw. induction l as [|x l IH]; [reflexivity|]. simpl filter.
  destruct (f x) eqn:Ex.
  - rewrite !occurrences_cons, IH. reflexivity.
  - rewrite occurrences_cons, IH. rewrite str_eqb_neq; [reflexivity|].
    intros ->. congruence.
Qed.

(** ** The pages of a PDF file *)

Lemma add_pages_app (l : list (option str)) (text : str) :
  Pdf.add_pages text l = text ++ Pdf.add_pages [] l.
Proof.
  unfold Pdf.add_pages. revert text.
  induction l as [|p l IH]; intros text; simpl.
  - rewrite app_nil_r. reflexivity.
  - rewrite IH, (IH (Pdf.add_page [] p)), app_assoc. f_equal.
    destruct p as [t|]; simpl; [|rewrite app_nil_r; reflexivity].
    destruct (truthy t); [reflexivity | rewrite app_nil_r; reflexivity].
Qed.

Lemma words_app_line (t rest : str) :
  words (t ++ [Wrap.newline] ++ rest) = words t ++ words rest.
Proof. unfold words. apply StrFacts.split_ws_app_space. reflexivity. Qed.

(** No word is lost, and no two words are run together, when the page
    texts are put one after the other. *)
Lemma words_add_pages (l : list (option str)) :
  words (Pdf.add_pages [] l) = Pdf.page_words l.
Proof.
  induction l as [|p l IH]; [reflexivity|].
  unfold Pdf.add_pages in *. simpl fold_left. fold (Pdf.add_pages (Pdf.add_page [] p) l).
  rewrite add_pages_app. unfold Pdf.add_pages. simpl Pdf.page_words.
  destruct p as [t|]; simpl Pdf.add_page.
  - destruct t as [|c t]; simpl truthy; cbv iota.
    + simpl. exact IH.
    + rewrite <- app_assoc, words_app_line, IH. reflexivity.
  - simpl. exact IH.
Qed.

Lemma words_add_more (l l2 : list (option str)) :
  words (Pdf.add_pages (Pdf.add_pages [] l) l2)
  = Pdf.page_words l ++ Pdf.page_words l2.
Proof.
  unfold Pdf.add_pages. rewrite <- fold_left_app.
  fold (Pdf.add_pages [] (l ++ l2)). rewrite words_add_pages.
  unfold Pdf.page_words. apply flat_map_app.
Qed.

End KeywordFacts.

Module KeywordResult.
Import Keywords.
Import KeywordFacts.

Lemma sorted_change {A : Type} (R R' : A -> A -> Prop) (l : list A) :
  (forall a b, In a l -> In b l -> R a b -> R' a b) ->
  StronglySorted R l -> StronglySorted R' l.
Proof.
  intros H S. induction S as [|x r Sr IH Hx]; [constructor|].
  constructor.
  - apply IH. intros a b Ha Hb. apply H; right; assumption.
  - rewrite Forall_forall in *. intros y Hy.
    apply H; [left; reflexivity | right; exact Hy | apply Hx, Hy].
Qed.

(** The entries that [most_common] returns are entries of the counter. *)
Lemma most_common_entries (K : list str) (n : Z) (p : str * nat) :
  In p (most_common (Counter K) n) -> In p (Counter K).
Proof.
  unfold most_common. intros H. apply firstn_incl in H.
  exact (Permutation_in _ (sort_perm (Counter K)) H).
Qed.

Lemma most_common_keys_in (K : list str) (n : Z) (w : str) :
  In w (map fst (most_common (Counter K) n)) -> In w K.
Proof.
  intros H. apply in_map_iff in H as [[k c] [E Hp]]. simpl in E. subst k.
  apply most_common_entries in Hp.
  apply (Counter_spec K). apply (in_map fst) in Hp. exact Hp.
Qed.

Lemma most_common_nodup (K : list str) (n : Z) :
  NoDup (map fst (most_common (Counter K) n)).
Proof.
  unfold most_common. rewrite <- firstn_map. apply firstn_nodup.
  eapply Permutation_NoDup.
  - apply Permutation_map. symmetry. apply sort_perm.
  - apply (Counter_spec K).
Qed.

Lemma most_common_length (K : list str) (n : Z) :
  length (map fst (most_common (Counter K) n)) <= Z.to_nat n.
Proof.
  unfold most_common. rewrite length_map. apply firstn_le_length.
Qed.

Lemma most_common_sorted (K : list str) (n : Z) :
  StronglySorted (fun a b => occurrences K b <= occurrences K a)
                 (map fst (most_common (Counter K) n)).
Proof.
  apply sorted_keys.
  - unfold most_common. apply firstn_sorted, sort_sorted.
  - apply Forall_forall. intros [k c] Hp. simpl.
    apply most_common_entries in Hp. apply (Counter_spec K), Hp.
Qed.

Lemma most_common_all (K : list str) (n : Z) (w : str) :
  length (map fst (most_common (Counter K) n)) < Z.to_nat n ->
  In w K -> In w (map fst (most_common (Counter K) n)).
Proof.
  unfold most_common. rewrite length_map. intros Hlen Hw.
  assert (Hall : length (sort (Counter K)) <= Z.to_nat n).
  { rewrite length_firstn in Hlen. lia. }
  rewrite firstn_all2 by exact Hall.
  apply (Counter_spec K) in Hw.
  eapply Permutation_in; [|exact Hw].
  apply Permutation_map. symmetry. apply sort_perm.
Qed.

Lemma keeps_parts (stop_words : list str) (w : str) :
  keeps stop_words w = true <->
  isalnum w = true /\ ~ In w stop_words /\ 2 < length w.
Proof.
  unfold keeps. rewrite !andb_true_iff, negb_true_iff, Nat.ltb_lt.
  rewrite <- Bool.not_true_iff_false, mem_In. tauto.
Qed.

End KeywordResult.

(** * The properties of the segmentation engine *)

Section Claims.

Variable sent_tokenize : str -> result (list str).

Local Abbreviation segment := (segment_text_for_audio sent_tokenize).
Local Abbreviation paginate := (split_story_into_pages sent_tokenize).

(** C2. Coverage and non-splitting: the audio chunks, and the story
    pages, are the groups of a partition of the sentence list into
    non-empty runs of consecutive sentences (a chunk is the sentences of
    its group joined by single spaces and trimmed, a page is the sentences
    of its group joined by single spaces), so every sentence lies, whole,
    in exactly one chunk or page, in order; and the words of the chunks, or
    pages, read in order are the words of the sentences read in order. *)
Theorem coverage_and_non_splitting
    (text : str) (max_chunk_size : Z) (story : str) (hint : Z)
    (sentences story_sents : list str) :
  sent_tokenize text = Ok sentences ->
  forallb nonblank sentences = true ->
  story_sentences sent_tokenize story = Ok story_sents ->
  (exists groups : list (list str),
      segment text max_chunk_size = Ok (map Audio.chunk_of groups) /\
      concat groups = sentences /\
      Forall (fun g => g <> []) groups /\
      flat_map words (map Audio.chunk_of groups) = flat_map words sentences)
  /\
  (exists groups : list (list str),
      paginate story hint = Ok (map (join (py " ")) groups) /\
      concat groups = story_sents /\
      Forall (fun g => g <> []) groups /\
      flat_map words (map (join (py " ")) groups)
      = flat_map words story_sents).
Proof.
  intros Htok Hnb Hstory. split.
  - destruct (AudioFacts.segment_grouping max_chunk_size sentences Hnb)
      as [groups [Hseg [Hcat Hne]]].
    exists groups. unfold segment_text_for_audio. rewrite Htok. simpl.
    rewrite Hseg. repeat split; try assumption.
    rewrite AudioFacts.words_chunks, Hcat. reflexivity.
  - exists (StorySpec.group [] story_sents).
    unfold split_story_into_pages. rewrite Hstory. simpl.
    rewrite StoryFacts.paginate_sentences_spec. unfold StorySpec.paginate.
    pose proof (StoryFacts.group_concat story_sents []) as Hcat.
    simpl in Hcat. repeat split.
    + exact Hcat.
    + apply StoryFacts.group_nonempty.
    + rewrite StoryFacts.words_pages, Hcat. reflexivity.
Qed.

(** C3. The page loop of the source is the closing policy of the
    specification: after each append the page closes by the first rule
    that applies (four sentences; more than 300 characters and two
    sentences; three sentences, more than 200 characters and a discourse
    marker inside the lowercased sentence just appended), otherwise it
    keeps accumulating, and what remains after the last sentence is the
    final page. *)
Theorem pagination_follows_closing_policy (story : str) (hint : Z) :
  paginate story hint
  = (sentences <- story_sentences sent_tokenize story ;;
     Ok (StorySpec.paginate sentences)).
Proof.
  unfold split_story_into_pages.
  destruct (story_sentences sent_tokenize story) as [sentences|e]; simpl.
  - rewrite StoryFacts.paginate_sentences_spec. reflexivity.
  - reflexivity.
Qed.

(** C5. The pages do not depend on the [sentences_per_page] argument. *)
Theorem pagination_ignores_hint (text : str) (h1 h2 : Z) :
  paginate text h1 = paginate text h2.
Proof. reflexivity. Qed.

(** C6. Page size: the pages are the groups of a partition of the
    sentences, every group has between one and four sentences, and every
    group but the last one was closed by a rule of the policy (so it has at
    least two sentences); only the final page can fall short of every
    rule. *)
Theorem page_size_invariant (story : str) (hint : Z) (sentences : list str) :
  story_sentences sent_tokenize story = Ok sentences ->
  exists groups : list (list str),
    paginate story hint = Ok (map (join (py " ")) groups) /\
    concat groups = sentences /\
    Forall (fun g => 1 <= length g <= 4) groups /\
    Forall (fun g => StorySpec.closes g = true /\ 2 <= length g)
           (removelast groups).
Proof.
  intros Hstory. exists (StorySpec.group [] sentences).
  unfold split_story_into_pages. rewrite Hstory. simpl.
  rewrite StoryFacts.paginate_sentences_spec. unfold StorySpec.paginate.
  repeat split.
  - apply (StoryFacts.group_concat sentences []).
  - apply StoryFacts.group_sizes. simpl. lia.
  - eapply Forall_impl; [|apply StoryFacts.group_closed].
    intros g Hg. split; [exact Hg | apply StoryFacts.closes_bounds, Hg].
Qed.

(** C7. A sentence longer than the budget is emitted as a chunk of its
    own: the chunks are those of the sentences before it, then the
    sentence itself (trimmed), then those of the sentences after it.
    This holds for every budget, in particular for those of at least 1. *)
Theorem long_sentence_alone
    (text : str) (max_chunk_size : Z) (pre : list str) (s : str)
    (post : list str) :
  sent_tokenize text = Ok (pre ++ s :: post) ->
  forallb nonblank (pre ++ s :: post) = true ->
  (Z.of_nat (length s) > max_chunk_size)%Z ->
  segment text max_chunk_size
  = Ok (Audio.segment_sentences pre max_chunk_size
        ++ strip s :: Audio.segment_sentences post max_chunk_size).
Proof.
  intros Htok Hnb Hlen.
  apply AudioFacts.forallb_nonblank_app in Hnb as [Hpre Hrest].
  simpl in Hrest. apply andb_true_iff in Hrest as [Hs _].
  unfold segment_text_for_audio. rewrite Htok. simpl. f_equal.
  unfold Audio.segment_sentences at 1. unfold Audio.run.
  rewrite fold_left_app. simpl fold_left.
  rewrite (AudioFacts.step_long max_chunk_size pre s Hpre Hlen).
  apply AudioFacts.run_after_long; assumption.
Qed.

(** C8. When the sentence splitter raises an exception,
    [split_text_into_chunks] returns the consecutive windows of
    [chunk_size] characters of the raw text: their concatenation is the
    text, window [k] is [text[k*n : k*n+n]], every window but the last
    has exactly [chunk_size] characters and the last one has between 1 and
    [chunk_size]. *)
Theorem fallback_fixed_width (text : str) (chunk_size : Z) (cls : string) :
  (1 <= chunk_size)%Z ->
  sent_tokenize text = Raise (Exception cls) ->
  let n := Z.to_nat chunk_size in
  exists windows : list str,
    split_text_into_chunks sent_tokenize text chunk_size = Ok windows /\
    concat windows = text /\
    (forall k, k < length windows ->
               nth k windows [] = slice text (k * n) (k * n + n)) /\
    (forall k, S k < length windows -> length (nth k windows []) = n) /\
    (forall k, k < length windows -> 1 <= length (nth k windows []) <= n).
Proof.
  intros Hsize Htok n.
  assert (Hn : 0 < n) by (unfold n; lia).
  exists (map (Fallback.window n text)
              (seq 0 (Fallback.count (length text) n))).
  assert (Hnth : forall k, k < Fallback.count (length text) n ->
            nth k (map (Fallback.window n text)
                       (seq 0 (Fallback.count (length text) n))) []
            = Fallback.window n text k).
  { intros k Hk.
    rewrite (nth_indep _ [] (Fallback.window n text 0))
      by (rewrite length_map, length_seq; exact Hk).
    rewrite (map_nth (Fallback.window n text)), seq_nth by exact Hk.
    reflexivity. }
  split; [|split; [|split; [|split]]].
  - unfold split_text_into_chunks, segment_text_for_audio.
    rewrite Htok. simpl. unfold Fallback.slices.
    destruct (Z.eqb_spec chunk_size 0); [lia|].
    destruct (Z.ltb_spec chunk_size 0); [lia|].
    fold n. rewrite FallbackFacts.range0_windows. reflexivity.
  - apply FallbackFacts.windows_concat, FallbackFacts.count_covers, Hn.
  - intros k Hk. rewrite length_map, length_seq in Hk.
    rewrite Hnth by exact Hk. reflexivity.
  - intros k Hk. rewrite length_map, length_seq in Hk.
    rewrite Hnth by lia. rewrite FallbackFacts.window_length.
    pose proof (FallbackFacts.count_tight (length text) n (S k) Hn Hk).
    simpl in H. lia.
  - intros k Hk. rewrite length_map, length_seq in Hk.
    rewrite Hnth by lia. rewrite FallbackFacts.window_length.
    pose proof (FallbackFacts.count_tight (length text) n k Hn Hk). lia.
Qed.

(** C9. Empty input is not an error: cleaning the empty string gives the
    empty string, and on the empty text both segmenters return the empty
    list, for every budget (in particular every budget of at least 1) and
    every hint.  The splitter is taken to return no sentence for the empty
    text. *)
Theorem empty_input_is_not_an_error :
  sent_tokenize [] = Ok [] ->
  clean_text [] = [] /\
  (forall n : Z, segment [] n = Ok []) /\
  (forall k : Z, paginate [] k = Ok []).
Proof.
  intros Htok. split; [reflexivity|]. split.
  - intros n. unfold segment_text_for_audio. rewrite Htok. reflexivity.
  - intros k. unfold split_story_into_pages, story_sentences.
    change (clean_text []) with (@nil ascii). rewrite Htok. reflexivity.
Qed.

(** C10. Every chunk returned by [segment_text_for_audio] is non-empty
    and has no leading or trailing whitespace, the sentences of the
    splitter being non-blank. *)
Theorem chunks_trimmed_nonempty
    (text : str) (max_chunk_size : Z) (sentences : list str) :
  sent_tokenize text = Ok sentences ->
  forallb nonblank sentences = true ->
  exists chunks : list str,
    segment text max_chunk_size = Ok chunks /\
    Forall (fun c => c <> [] /\ strip c = c) chunks.
Proof.
  intros Htok Hnb.
  destruct (AudioFacts.segment_grouping max_chunk_size sentences Hnb)
    as [groups [Hseg [Hcat Hne]]].
  exists (map Audio.chunk_of groups). split.
  - unfold segment_text_for_audio. rewrite Htok. simpl. rewrite Hseg.
    reflexivity.
  - apply Forall_map. rewrite <- Hcat in Hnb.
    clear Hseg Hcat. induction Hne as [|g G Hg _ IH]; [constructor|].
    simpl in Hnb. apply AudioFacts.forallb_nonblank_app in Hnb as [Hgn HG].
    constructor; [|exact (IH HG)].
    unfold Audio.chunk_of. split; [|apply StrFacts.strip_idem].
    pose proof (StrFacts.nonblank_join g Hg Hgn) as H.
    unfold nonblank in H. intros E. rewrite E in H. discriminate.
Qed.

End Claims.

(** C1. The budget is missed by one character: the test of the loop
    leaves the separating space out of the count.  The two sentences below
    have 12 and 15 characters; with a budget of 27 they are put together in
    one chunk of 28 characters, which holds two sentences. *)
Theorem segment_budget_missed_by_separator :
  Sample.sent_tokenize (py "Hello world. This is a test.")
  = Ok [py "Hello world."; py "This is a test."] /\
  segment_text_for_audio Sample.sent_tokenize
    (py "Hello world. This is a test.") 27
  = Ok [py "Hello world. This is a test."] /\
  Audio.segment_sentences [py "Hello world."; py "This is a test."] 27
  = [py "Hello world. This is a test."] /\
  length (py "Hello world. This is a test.") = 28.
Proof. repeat split. Qed.

(** C4, as stated, fails: the filter of the fourth pass runs after the
    whitespace passes, so the removal of a character can leave two spaces
    side by side, which only a second cleaning collapses. *)
Lemma clean_text_not_idempotent :
  clean_text (py "a @ b") = py "a  b" /\
  clean_text (clean_text (py "a @ b")) = py "a b" /\
  clean_text (clean_text (py "a @ b")) <> clean_text (py "a @ b").
Proof. repeat split. discriminate. Qed.

(** C4, amended. Cleaning is idempotent on the texts in which the filter
    of the fourth pass finds nothing to remove: if every character of [x]
    is a word character, whitespace or one of the kept punctuation
    characters, then cleaning the cleaned text changes nothing. *)
Theorem clean_text_idempotent_on_kept (x : str) :
  Normal.all_kept x = true ->
  clean_text (clean_text x) = clean_text x.
Proof.
  intros Hk. apply CleanFacts.normal_fixed, CleanFacts.clean_text_normal, Hk.
Qed.

Lemma clean_text_idempotent_on_kept_witness :
  clean_text (clean_text (py "Hello   world .It  works , (yes)  !"))
  = clean_text (py "Hello   world .It  works , (yes)  !").
Proof.
  exact (clean_text_idempotent_on_kept
           (py "Hello   world .It  works , (yes)  !") eq_refl).
Defined.

Lemma coverage_and_non_splitting_witness :
  (exists groups : list (list str),
      segment_text_for_audio Sample.sent_tokenize
        (py "Hello world. This is a test. It works well.") 30
      = Ok (map Audio.chunk_of groups) /\
      concat groups
      = [py "Hello world."; py "This is a test."; py "It works well."] /\
      Forall (fun g => g <> []) groups /\
      flat_map words (map Audio.chunk_of groups)
      = flat_map words
          [py "Hello world."; py "This is a test."; py "It works well."])
  /\
  (exists groups : list (list str),
      split_story_into_pages Sample.sent_tokenize (py "A. B. C. D. E.") 3
      = Ok (map (join (py " ")) groups) /\
      concat groups = [py "A."; py "B."; py "C."; py "D."; py "E."] /\
      Forall (fun g => g <> []) groups /\
      flat_map words (map (join (py " ")) groups)
      = flat_map words [py "A."; py "B."; py "C."; py "D."; py "E."]).
Proof.
  exact (coverage_and_non_splitting Sample.sent_tokenize
           (py "Hello world. This is a test. It works well.") 30
           (py "A. B. C. D. E.") 3
           [py "Hello world."; py "This is a test."; py "It works well."]
           [py "A."; py "B."; py "C."; py "D."; py "E."]
           eq_refl eq_refl eq_refl).
Defined.

Lemma page_size_invariant_witness :
  exists groups : list (list str),
    split_story_into_pages Sample.sent_tokenize (py "A. B. C. D. E.") 3
    = Ok (map (join (py " ")) groups) /\
    concat groups = [py "A."; py "B."; py "C."; py "D."; py "E."] /\
    Forall (fun g => 1 <= length g <= 4) groups /\
    Forall (fun g => StorySpec.closes g = true /\ 2 <= length g)
           (removelast groups).
Proof.
  exact (page_size_invariant Sample.sent_tokenize (py "A. B. C. D. E.") 3
           [py "A."; py "B."; py "C."; py "D."; py "E."] eq_refl).
Defined.

Lemma long_sentence_alone_witness :
  segment_text_for_audio Sample.sent_tokenize
    (py "Hi. This sentence is far too long. Ok.") 10
  = Ok (Audio.segment_sentences [py "Hi."] 10
        ++ strip (py "This sentence is far too long.")
        :: Audio.segment_sentences [py "Ok."] 10).
Proof.
  exact (long_sentence_alone Sample.sent_tokenize
           (py "Hi. This sentence is far too long. Ok.") 10
           [py "Hi."] (py "This sentence is far too long.") [py "Ok."]
           eq_refl eq_refl eq_refl).
Defined.

Lemma fallback_fixed_width_witness :
  exists windows : list str,
    split_text_into_chunks Sample.failing_tokenize (py "abcdefgh") 3
    = Ok windows /\
    concat windows = py "abcdefgh" /\
    (forall k, k < length windows ->
               nth k windows [] = slice (py "abcdefgh") (k * 3) (k * 3 + 3)) /\
    (forall k, S k < length windows -> length (nth k windows []) = 3) /\
    (forall k, k < length windows -> 1 <= length (nth k windows []) <= 3).
Proof.
  exact (fallback_fixed_width Sample.failing_tokenize (py "abcdefgh") 3
           "LookupError" ltac:(lia) eq_refl).
Defined.

Lemma empty_input_is_not_an_error_witness :
  clean_text [] = [] /\
  (forall n : Z, segment_text_for_audio Sample.sent_tokenize [] n = Ok []) /\
  (forall k : Z, split_story_into_pages Sample.sent_tokenize [] k = Ok []).
Proof.
  exact (empty_input_is_not_an_error Sample.sent_tokenize eq_refl).
Defined.

Lemma chunks_trimmed_nonempty_witness :
  exists chunks : list str,
    segment_text_for_audio Sample.sent_tokenize
      (py "  Hello world. This is a test.  It works well.") 20
    = Ok chunks /\
    Forall (fun c => c <> [] /\ strip c = c) chunks.
Proof.
  exact (chunks_trimmed_nonempty Sample.sent_tokenize
           (py "  Hello world. This is a test.  It works well.") 20
           [py "Hello world."; py "This is a test."; py "It works well."]
           eq_refl eq_refl).
Defined.

(** * Remarks on the edges of the statements above *)

(** Whatever the sentences, a chunk is at most one character over the
    budget unless it is a single sentence. *)
Remark budget_plus_one (sentences : list str) (max_chunk_size : Z) :
  Forall (Audio.within max_chunk_size sentences)
         (Audio.segment_sentences sentences max_chunk_size).
Proof. apply AudioBounds.segment_budget. Qed.

(** A blank sentence, which NLTK never returns, would be emitted as an
    empty chunk. *)
Remark blank_sentence_gives_empty_chunk :
  Audio.segment_sentences [py " "; py "ab"] 1 = [ []; py "ab" ].
Proof. reflexivity. Qed.

(** The fallback with a zero width raises, with a negative width it
    returns no window. *)
Remark fallback_zero_raises (text : str) :
  split_text_into_chunks Sample.failing_tokenize text 0
  = Raise (Exception "ValueError").
Proof. reflexivity. Qed.

Remark fallback_negative_empty :
  split_text_into_chunks Sample.failing_tokenize (py "abc") (-2) = Ok [].
Proof. reflexivity. Qed.

(** An exception outside [Exception] is not caught. *)
Remark non_exception_propagates (text : str) (chunk_size : Z) :
  split_text_into_chunks
    (fun _ => Raise (NonException "KeyboardInterrupt")) text chunk_size
  = Raise (NonException "KeyboardInterrupt").
Proof. reflexivity. Qed.

(** The marker test is a substring test on the lowercased sentence. *)
Remark marker_inside_word :
  StorySpec.has_marker (py "Sandy smiled.") = true /\
  StorySpec.has_marker (py "BUT no.") = true /\
  StorySpec.has_marker (py "He ran fast.") = false.
Proof. repeat split. Qed.

(** The spaces between the sentences are not counted in the cumulative
    length of a page. *)
Remark page_length_ignores_separators :
  StorySpec.page_length [py "ab."; py "cd."] = 6 /\
  length (join (py " ") [py "ab."; py "cd."]) = 7.
Proof. split; reflexivity. Qed.

(** * Further properties of the text utilities *)

(** ** Line wrapping *)

(** X1. The lines of [format_text_for_storybook] are groups of consecutive
    words of the text, joined by single spaces; every line holds at least
    one word, and a line of two words or more is at most
    [max_chars_per_line] characters long (only a line made of one word can
    be longer). *)
Theorem format_line_budget (text : str) (font_size max_chars_per_line : Z) :
  exists groups : list (list str),
    format_text_for_storybook text font_size max_chars_per_line
    = join [Wrap.newline] (map (join (py " ")) groups) /\
    concat groups = words text /\
    Forall (fun g => g <> [] /\
                     (length g = 1 \/
                      (Z.of_nat (length (join (py " ") g))
                       <= max_chars_per_line)%Z))
           groups.
Proof.
  exists (Wrap.groups max_chars_per_line [] (words text)).
  split; [apply WrapFacts.format_groups|]. split.
  - apply (WrapFacts.groups_concat max_chars_per_line (words text) []).
  - apply WrapFacts.groups_budget. left. reflexivity.
Qed.

(** X2. A line is broken only where it has to be: for two consecutive
    lines, the first line followed by a space and the first word of the
    second line is longer than [max_chars_per_line]. *)
Theorem format_breaks_forced (text : str) (font_size max_chars_per_line : Z) :
  exists groups : list (list str),
    format_text_for_storybook text font_size max_chars_per_line
    = join [Wrap.newline] (map (join (py " ")) groups) /\
    concat groups = words text /\
    Wrap.forced_breaks max_chars_per_line groups.
Proof.
  exists (Wrap.groups max_chars_per_line [] (words text)).
  split; [apply WrapFacts.format_groups|]. split.
  - apply (WrapFacts.groups_concat max_chars_per_line (words text) []).
  - apply WrapFacts.groups_forced.
Qed.

(** X3. Wrapping keeps the words: splitting the result at whitespace
    gives the words of the text, in order. *)
Theorem format_keeps_words (text : str) (font_size max_chars_per_line : Z) :
  words (format_text_for_storybook text font_size max_chars_per_line)
  = words text.
Proof.
  apply WrapFacts.format_words.
Qed.

(** X4. Wrapping a wrapped text again, to the same width, changes
    nothing (whatever the font sizes). *)
Theorem format_idempotent (text : str) (fs1 fs2 max_chars_per_line : Z) :
  format_text_for_storybook
    (format_text_for_storybook text fs1 max_chars_per_line)
    fs2 max_chars_per_line
  = format_text_for_storybook text fs1 max_chars_per_line.
Proof.
  unfold format_text_for_storybook at 1. cbv zeta.
  rewrite WrapFacts.format_words. reflexivity.
Qed.

(** X5. No line of the result is empty or starts or ends with whitespace,
    and the only whitespace inside a line is the plain space (so the line
    breaks of the result are exactly those between the lines). *)
Theorem format_lines_clean (text : str) (font_size max_chars_per_line : Z) :
  exists lines : list str,
    format_text_for_storybook text font_size max_chars_per_line
    = join [Wrap.newline] lines /\
    Forall (fun l => l <> [] /\ strip l = l /\
                     forallb Normal.plain_space l = true) lines.
Proof.
  exists (map (join (py " "))
              (Wrap.groups max_chars_per_line [] (words text))).
  split; [apply WrapFacts.format_groups|].
  apply Forall_map.
  pose proof (WrapFacts.groups_concat max_chars_per_line (words text) [])
    as Hcat.
  pose proof (WrapFacts.groups_budget max_chars_per_line (words text) []
                (or_introl eq_refl)) as Hne.
  pose proof (WrapFacts.words_solid text) as Hs.
  simpl in Hcat. rewrite <- Hcat in Hs. apply Forall_concat in Hs.
  rewrite Forall_forall in *. intros g Hg.
  destruct (Hne g Hg) as [Hg0 _].
  destruct (WrapFacts.line_clean g Hg0 (Hs g Hg)) as [Ht [Hh [Hl Hp]]].
  repeat split.
  - intros E. rewrite E in Ht. discriminate.
  - apply WrapFacts.strip_fixed; assumption.
  - exact Hp.
Qed.

(** ** Audio chunks *)

Section MoreSegmenter.

Variable sent_tokenize : str -> result (list str).

(** X6. A chunk is closed only when it has to be: the chunks are the
    groups of a partition of the sentences and, for two consecutive
    chunks, the first one (before trimming) directly followed by the first
    sentence of the second is longer than [max_chunk_size].  The sentences
    of the splitter are not blank. *)
Theorem segment_cuts_forced
    (text : str) (max_chunk_size : Z) (sentences : list str) :
  sent_tokenize text = Ok sentences ->
  forallb nonblank sentences = true ->
  exists groups : list (list str),
    segment_text_for_audio sent_tokenize text max_chunk_size
    = Ok (map Audio.chunk_of groups) /\
    concat groups = sentences /\
    AudioGroups.forced_cuts max_chunk_size groups.
Proof.
  intros Htok Hnb.
  exists (AudioGroups.groups max_chunk_size [] sentences). split; [|split].
  - unfold segment_text_for_audio. rewrite Htok. simpl. f_equal.
    unfold Audio.segment_sentences.
    apply (AudioGroupFacts.chunk_run_groups max_chunk_size sentences [] [] Hnb).
  - apply (AudioGroupFacts.chunk_groups_concat max_chunk_size sentences []).
  - apply AudioGroupFacts.chunk_groups_forced.
Qed.

(** X7. Whatever the sentences of the splitter, a chunk is at most
    [max_chunk_size + 1] characters long, or it is one sentence of the
    text (trimmed). *)
Theorem segment_budget_slack
    (text : str) (max_chunk_size : Z) (sentences : list str) :
  sent_tokenize text = Ok sentences ->
  exists chunks : list str,
    segment_text_for_audio sent_tokenize text max_chunk_size = Ok chunks /\
    Forall (fun c => (Z.of_nat (length c) <= max_chunk_size + 1)%Z \/
                     exists s, In s sentences /\ c = strip s) chunks.
Proof.
  intros Htok. exists (Audio.segment_sentences sentences max_chunk_size).
  split.
  - unfold segment_text_for_audio. rewrite Htok. reflexivity.
  - apply AudioBounds.segment_budget.
Qed.

(** X8. Whatever the sentences of the splitter (blank ones included), the
    words of the chunks, in order, are the words of the sentences, in
    order. *)
Theorem segment_keeps_words
    (text : str) (max_chunk_size : Z) (sentences : list str) :
  sent_tokenize text = Ok sentences ->
  exists chunks : list str,
    segment_text_for_audio sent_tokenize text max_chunk_size = Ok chunks /\
    flat_map words chunks = flat_map words sentences.
Proof.
  intros Htok. exists (Audio.segment_sentences sentences max_chunk_size).
  split.
  - unfold segment_text_for_audio. rewrite Htok. reflexivity.
  - apply AudioBounds.segment_words.
Qed.

(** ** Story pages *)

(** X12. With [n] sentences there are at least [n / 4] pages, rounded
    up, and at most [(n + 1) / 2]: [n <= 4 * pages] and
    [2 * pages <= n + 1]. *)
Theorem page_count_bounds (story : str) (hint : Z) (sentences : list str) :
  story_sentences sent_tokenize story = Ok sentences ->
  exists pages : list str,
    split_story_into_pages sent_tokenize story hint = Ok pages /\
    length sentences <= 4 * length pages /\
    2 * length pages <= length sentences + 1.
Proof.
  intros Hstory.
  exists (map (join (py " ")) (StorySpec.group [] sentences)).
  pose proof (StoryFacts.group_concat sentences []) as Hcat. simpl in Hcat.
  assert (Hsz : Forall (fun g => 1 <= length g <= 4)
                       (StorySpec.group [] sentences))
    by (apply StoryFacts.group_sizes; simpl; lia).
  split; [|split].
  - unfold split_story_into_pages. rewrite Hstory. simpl.
    rewrite StoryFacts.paginate_sentences_spec. reflexivity.
  - rewrite length_map, <- Hcat at 1. apply PageFacts.concat_length_upper, Hsz.
  - rewrite length_map.
    destruct (StorySpec.group [] sentences) as [|g gs] eqn:E; [simpl; lia|].
    rewrite <- Hcat. apply PageFacts.concat_length_lower;
      [discriminate | exact Hsz |].
    rewrite <- E. eapply Forall_impl; [|apply StoryFacts.group_closed].
    intros h Hh. apply StoryFacts.closes_bounds, Hh.
Qed.

(** X13. No page is empty, and no page starts or ends with whitespace. *)
Theorem pages_trimmed_nonempty (story : str) (hint : Z) (raw : list str) :
  sent_tokenize (clean_text story) = Ok raw ->
  exists pages : list str,
    split_story_into_pages sent_tokenize story hint = Ok pages /\
    Forall (fun p => p <> [] /\ strip p = p) pages.
Proof.
  intros Htok.
  set (sentences := Story.nonempty_sentences raw).
  exists (map (join (py " ")) (StorySpec.group [] sentences)). split.
  - unfold split_story_into_pages, story_sentences. rewrite Htok. simpl.
    rewrite StoryFacts.paginate_sentences_spec. reflexivity.
  - apply Forall_map.
    pose proof (StoryFacts.group_concat sentences []) as Hcat. simpl in Hcat.
    pose proof (PageFacts.nonempty_sentences_firm raw) as Hf.
    fold sentences in Hf. rewrite <- Hcat in Hf. apply Forall_concat in Hf.
    pose proof (StoryFacts.group_nonempty sentences []) as Hne.
    rewrite Forall_forall in *. intros g Hg.
    apply PageFacts.firm_strip, PageFacts.join_firm; [apply Hne, Hg|].
    apply Hf, Hg.
Qed.

(** X14. Cleaning the story beforehand makes no difference to the pages,
    when the filter of [clean_text] finds nothing to remove in it. *)
Theorem pages_of_cleaned_story (story : str) (hint : Z) :
  Normal.all_kept story = true ->
  split_story_into_pages sent_tokenize (clean_text story) hint
  = split_story_into_pages sent_tokenize story hint.
Proof.
  intros Hk. unfold split_story_into_pages, story_sentences.
  rewrite (CleanFacts.normal_fixed (clean_text story)
             (CleanFacts.clean_text_normal story Hk)).
  reflexivity.
Qed.

End MoreSegmenter.

(** ** Cleaning *)

(** X9. Whatever the text, the result of [clean_text] holds only
    characters that the filter keeps, and has no whitespace at either
    end. *)
Theorem clean_text_kept_and_trimmed (x : str) :
  Normal.all_kept (clean_text x) = true /\
  strip (clean_text x) = clean_text x.
Proof.
  split; [apply CleanFacts.clean_text_all_kept|].
  unfold clean_text. apply StrFacts.strip_idem.
Qed.

(** X10. When the filter finds nothing to remove in the text, the
    result is fully cleaned: every whitespace character is a plain space,
    no two of them are adjacent, none stands before a punctuation mark,
    and no capital letter directly follows a punctuation mark. *)
Theorem clean_text_result_normal (x : str) :
  Normal.all_kept x = true ->
  forallb Normal.plain_space (clean_text x) = true /\
  Normal.no_pair is_space is_space (clean_text x) = true /\
  Normal.no_pair is_space is_punct (clean_text x) = true /\
  Normal.no_pair is_punct is_upper (clean_text x) = true.
Proof.
  intros Hk.
  destruct (CleanFacts.clean_text_normal x Hk) as [_ [H1 [H2 [H3 [H4 _]]]]].
  repeat split; assumption.
Qed.

(** X11. Whatever the text, a third cleaning changes nothing: the
    result of two cleanings is a fixed point. *)
Theorem clean_text_twice_is_fixed (x : str) :
  clean_text (clean_text (clean_text x)) = clean_text (clean_text x).
Proof.
  apply CleanFacts.normal_fixed, CleanFacts.clean_text_normal,
    CleanFacts.clean_text_all_kept.
Qed.

(** ** Keywords *)

Section MoreKeywords.

Variable stopwords_english : result (list str).
Variable word_tokenize : str -> result (list str).

Local Abbreviation extract :=
  (Keywords.extract_keywords stopwords_english word_tokenize).

(** X15. [extract_keywords] returns at most [max_keywords] keywords, none
    for [max_keywords <= 0], and no keyword twice. *)
Theorem keywords_bounded_distinct
    (text : str) (max_keywords : Z) (stop_words tokens : list str) :
  stopwords_english = Ok stop_words ->
  word_tokenize (lower text) = Ok tokens ->
  exists kws : list str,
    extract text max_keywords = Ok kws /\
    length kws <= Z.to_nat max_keywords /\
    NoDup kws.
Proof.
  intros Hs Ht. eexists. split; [|split].
  - unfold Keywords.extract_keywords. rewrite Hs. simpl. rewrite Ht. simpl.
    reflexivity.
  - apply KeywordResult.most_common_length.
  - apply KeywordResult.most_common_nodup.
Qed.

(** X16. Every keyword is a token of the lowercased text that is
    alphanumeric, is not a stop word and has more than two characters. *)
Theorem keywords_sound
    (text : str) (max_keywords : Z) (stop_words tokens : list str) :
  stopwords_english = Ok stop_words ->
  word_tokenize (lower text) = Ok tokens ->
  exists kws : list str,
    extract text max_keywords = Ok kws /\
    forall w, In w kws ->
      In w tokens /\ Keywords.isalnum w = true /\
      ~ In w stop_words /\ 2 < length w.
Proof.
  intros Hs Ht. eexists. split.
  - unfold Keywords.extract_keywords. rewrite Hs. simpl. rewrite Ht. simpl.
    reflexivity.
  - intros w Hw. apply KeywordResult.most_common_keys_in in Hw.
    apply filter_In in Hw as [Hin Hk].
    apply KeywordResult.keeps_parts in Hk. tauto.
Qed.

(** X17. The keywords come by decreasing frequency: a keyword never
    occurs more often among the tokens than a keyword listed before it. *)
Theorem keywords_by_frequency
    (text : str) (max_keywords : Z) (stop_words tokens : list str) :
  stopwords_english = Ok stop_words ->
  word_tokenize (lower text) = Ok tokens ->
  exists kws : list str,
    extract text max_keywords = Ok kws /\
    StronglySorted
      (fun a b => Keywords.occurrences tokens b
                  <= Keywords.occurrences tokens a) kws.
Proof.
  intros Hs Ht. eexists. split.
  - unfold Keywords.extract_keywords. rewrite Hs. simpl. rewrite Ht. simpl.
    reflexivity.
  - eapply KeywordResult.sorted_change;
      [|apply KeywordResult.most_common_sorted].
    intros a b Ha Hb Hab. simpl in Hab.
    apply KeywordResult.most_common_keys_in in Ha, Hb.
    apply filter_In in Ha as [_ Ha]. apply filter_In in Hb as [_ Hb].
    rewrite (KeywordFacts.occurrences_filter _ tokens a Ha) in Hab.
    rewrite (KeywordFacts.occurrences_filter _ tokens b Hb) in Hab.
    exact Hab.
Qed.

(** X18. When fewer than [max_keywords] keywords come back, none was
    left out: every token that is alphanumeric, not a stop word and longer
    than two characters is among them. *)
Theorem keywords_complete_when_short
    (text : str) (max_keywords : Z) (stop_words tokens : list str) :
  stopwords_english = Ok stop_words ->
  word_tokenize (lower text) = Ok tokens ->
  exists kws : list str,
    extract text max_keywords = Ok kws /\
    (length kws < Z.to_nat max_keywords ->
     forall w, In w tokens -> Keywords.isalnum w = true ->
               ~ In w stop_words -> 2 < length w -> In w kws).
Proof.
  intros Hs Ht. eexists. split.
  - unfold Keywords.extract_keywords. rewrite Hs. simpl. rewrite Ht. simpl.
    reflexivity.
  - intros Hlen w Hin Ha Hst Hl.
    apply KeywordResult.most_common_all; [exact Hlen|].
    apply filter_In. split; [exact Hin|].
    apply KeywordResult.keeps_parts. tauto.
Qed.

End MoreKeywords.

(** ** Text of a PDF file *)

(** X19. The text extracted from a PDF file keeps the words of the pages,
    in page order, and runs no two words together.  When pdfplumber gave
    100 characters or more these are the words of its pages; otherwise the
    words of the pages of PyPDF2 follow them (the text is extended, not
    replaced). *)
Theorem pdf_text_keeps_words (l l2 : list (option str)) (r : str) :
  Pdf.extract_text_from_pdf (Ok l) (Ok l2) = Ok r ->
  words r
  = Pdf.page_words l
    ++ (if length (strip (Pdf.add_pages [] l)) <? 100
        then Pdf.page_words l2 else []).
Proof.
  unfold Pdf.extract_text_from_pdf. cbv zeta.
  destruct (length (strip (Pdf.add_pages [] l)) <? 100); intros E;
    injection E as <-; rewrite StrFacts.words_strip.
  - apply KeywordFacts.words_add_more.
  - rewrite app_nil_r. apply KeywordFacts.words_add_pages.
Qed.


(** X21. The text that [PDFToAudioConverter.extract_text_from_pdf] hands
    to the audio conversion is empty, or it is the cleaned text, at least
    10 characters long, with kept characters only and no whitespace at
    either end; an [Exception] of the extraction gives the empty text. *)
Theorem converter_text_empty_or_clean (extracted : result str) :
  match Pdf.converter_extract_text extracted with
  | Ok r =>
      r = [] \/
      (exists text, extracted = Ok text /\ r = clean_text text /\
                    10 <= length r /\ strip r = r /\
                    Normal.all_kept r = true)
  | Raise e => exists cls, e = NonException cls /\ extracted = Raise e
  end.
Proof.
  unfold Pdf.converter_extract_text.
  destruct extracted as [text|[cls|cls]];
    [|left; reflexivity | exists cls; split; reflexivity].
  destruct (negb (truthy text) || (length (strip text) <? 10));
    [left; reflexivity|].
  cbv zeta.
  destruct (negb (truthy (clean_text text))) eqn:E1; [left; reflexivity|].
  destruct (Nat.ltb_spec (length (strip (clean_text text))) 10) as [H|H];
    [left; reflexivity|].
  simpl. right. exists text.
  assert (Hs : strip (clean_text text) = clean_text text)
    by (unfold clean_text; apply StrFacts.strip_idem).
  rewrite Hs in H. repeat split; try assumption.
  apply CleanFacts.clean_text_all_kept.
Qed.

(** ** The statements above, at concrete inputs *)

Lemma segment_cuts_forced_witness :
  exists groups : list (list str),
    segment_text_for_audio Sample.sent_tokenize
      (py "Hello world. This is a test. It works well.") 30
    = Ok (map Audio.chunk_of groups) /\
    concat groups
    = [py "Hello world."; py "This is a test."; py "It works well."] /\
    AudioGroups.forced_cuts 30 groups.
Proof.
  exact (segment_cuts_forced Sample.sent_tokenize
           (py "Hello world. This is a test. It works well.") 30
           [py "Hello world."; py "This is a test."; py "It works well."]
           eq_refl eq_refl).
Defined.

Lemma segment_budget_slack_witness :
  exists chunks : list str,
    segment_text_for_audio Sample.sent_tokenize
      (py "Hello world. This is a test.") 27
    = Ok chunks /\
    Forall (fun c => (Z.of_nat (length c) <= 27 + 1)%Z \/
                     exists s,
                       In s [py "Hello world."; py "This is a test."] /\
                       c = strip s) chunks.
Proof.
  exact (segment_budget_slack Sample.sent_tokenize
           (py "Hello world. This is a test.") 27
           [py "Hello world."; py "This is a test."] eq_refl).
Defined.

Lemma segment_keeps_words_witness :
  exists chunks : list str,
    segment_text_for_audio (fun _ => Ok [py " "; py "ab"; py " c d "])
      (py "ab c d") 1
    = Ok chunks /\
    flat_map words chunks = flat_map words [py " "; py "ab"; py " c d "].
Proof.
  exact (segment_keeps_words (fun _ => Ok [py " "; py "ab"; py " c d "])
           (py "ab c d") 1 [py " "; py "ab"; py " c d "] eq_refl).
Defined.

Lemma page_count_bounds_witness :
  exists pages : list str,
    split_story_into_pages Sample.sent_tokenize (py "A. B. C. D. E.") 3
    = Ok pages /\
    5 <= 4 * length pages /\
    2 * length pages <= 5 + 1.
Proof.
  exact (page_count_bounds Sample.sent_tokenize (py "A. B. C. D. E.") 3
           [py "A."; py "B."; py "C."; py "D."; py "E."] eq_refl).
Defined.

Lemma pages_trimmed_nonempty_witness :
  exists pages : list str,
    split_story_into_pages Sample.sent_tokenize (py "  A.  B. C. D. E. ") 3
    = Ok pages /\
    Forall (fun p => p <> [] /\ strip p = p) pages.
Proof.
  exact (pages_trimmed_nonempty Sample.sent_tokenize
           (py "  A.  B. C. D. E. ") 3
           [py "A."; py "B."; py "C."; py "D."; py "E."] eq_refl).
Defined.

Lemma pages_of_cleaned_story_witness :
  split_story_into_pages Sample.sent_tokenize
    (clean_text (py "Once  upon a time .It was  good .")) 3
  = split_story_into_pages Sample.sent_tokenize
      (py "Once  upon a time .It was  good .") 3.
Proof.
  exact (pages_of_cleaned_story Sample.sent_tokenize
           (py "Once  upon a time .It was  good .") 3 eq_refl).
Defined.

Lemma clean_text_result_normal_witness :
  forallb Normal.plain_space (clean_text (py "Hello   world .It  works !"))
  = true /\
  Normal.no_pair is_space is_space
    (clean_text (py "Hello   world .It  works !")) = true /\
  Normal.no_pair is_space is_punct
    (clean_text (py "Hello   world .It  works !")) = true /\
  Normal.no_pair is_punct is_upper
    (clean_text (py "Hello   world .It  works !")) = true.
Proof.
  exact (clean_text_result_normal (py "Hello   world .It  works !") eq_refl).
Defined.

Lemma keywords_bounded_distinct_witness :
  exists kws : list str,
    Keywords.extract_keywords Keywords.sample_stopwords
      Keywords.sample_tokenize
      (py "The cat and the Dog saw the cat and a big fish") 2
    = Ok kws /\
    length kws <= 2 /\ NoDup kws.
Proof.
  exact (keywords_bounded_distinct Keywords.sample_stopwords
           Keywords.sample_tokenize
           (py "The cat and the Dog saw the cat and a big fish") 2
           [py "the"; py "and"; py "was"]
           (words (lower (py "The cat and the Dog saw the cat and a big fish")))
           eq_refl eq_refl).
Defined.

Lemma keywords_sound_witness :
  exists kws : list str,
    Keywords.extract_keywords Keywords.sample_stopwords
      Keywords.sample_tokenize
      (py "The cat and the Dog saw the cat and a big fish") 10
    = Ok kws /\
    forall w, In w kws ->
      In w (words (lower (py "The cat and the Dog saw the cat and a big fish")))
      /\ Keywords.isalnum w = true /\
      ~ In w [py "the"; py "and"; py "was"] /\ 2 < length w.
Proof.
  exact (keywords_sound Keywords.sample_stopwords Keywords.sample_tokenize
           (py "The cat and the Dog saw the cat and a big fish") 10
           [py "the"; py "and"; py "was"]
           (words (lower (py "The cat and the Dog saw the cat and a big fish")))
           eq_refl eq_refl).
Defined.

Lemma keywords_by_frequency_witness :
  exists kws : list str,
    Keywords.extract_keywords Keywords.sample_stopwords
      Keywords.sample_tokenize
      (py "The cat and the Dog saw the cat and a big fish") 10
    = Ok kws /\
    StronglySorted
      (fun a b =>
         Keywords.occurrences
           (words (lower (py "The cat and the Dog saw the cat and a big fish")))
           b
         <= Keywords.occurrences
              (words (lower (py "The cat and the Dog saw the cat and a big fish")))
              a)
      kws.
Proof.
  exact (keywords_by_frequency Keywords.sample_stopwords
           Keywords.sample_tokenize
           (py "The cat and the Dog saw the cat and a big fish") 10
           [py "the"; py "and"; py "was"]
           (words (lower (py "The cat and the Dog saw the cat and a big fish")))
           eq_refl eq_refl).
Defined.

Lemma keywords_complete_when_short_witness :
  exists kws : list str,
    Keywords.extract_keywords Keywords.sample_stopwords
      Keywords.sample_tokenize
      (py "The cat and the Dog saw the cat and a big fish") 10
    = Ok kws /\
    (length kws < 10 ->
     forall w,
       In w (words (lower (py "The cat and the Dog saw the cat and a big fish")))
       -> Keywords.isalnum w = true ->
       ~ In w [py "the"; py "and"; py "was"] -> 2 < length w -> In w kws).
Proof.
  exact (keywords_complete_when_short Keywords.sample_stopwords
           Keywords.sample_tokenize
           (py "The cat and the Dog saw the cat and a big fish") 10
           [py "the"; py "and"; py "was"]
           (words (lower (py "The cat and the Dog saw the cat and a big fish")))
           eq_refl eq_refl).
Defined.

Lemma pdf_text_keeps_words_witness :
  words (py "short" ++ [Wrap.newline] ++ py " more")
  = Pdf.page_words [Some (py "short"); None; Some []]
    ++ (if length (strip (Pdf.add_pages []
                            [Some (py "short"); None; Some []])) <? 100
        then Pdf.page_words [Some (py " more ")] else []).
Proof.
  exact (pdf_text_keeps_words [Some (py "short"); None; Some []]
           [Some (py " more ")]
           (py "short" ++ [Wrap.newline] ++ py " more") eq_refl).
Defined.
